(** * Cherenkov radiation simulation: the frame engine and its input dialog

    A shallow embedding of [animation.py] ([simulation] and the closures
    [animate] and [compute_intensity] it defines) and of
    [cherenkov_simulation.py] ([InputDialog.validate_and_run]).

    Numbers.  Python's [float] is IEEE 754 binary64, and so is Rocq's
    primitive [float]: the frame arithmetic of [animate] (products,
    differences, comparisons) is embedded on [float] and evaluates to the
    very values the interpreter computes.  Frame indices are Python [int]s
    and are embedded as [Z].  [compute_intensity] goes through [np.exp],
    [np.sqrt], [np.power] and the complex exponential, which have no
    binary64 counterpart here; it is embedded in module [Field] over the
    real numbers, every division checked for a zero divisor. *)

From Stdlib Require Import ZArith List Bool Lia String FinFun.
From Stdlib Require Import Floats.
From Stdlib Require Import Reals Lra.
Import ListNotations.

Set Warnings "-inexact-float".

(** ** Python numbers *)

Module Py.

Open Scope float_scope.

(** [float(n)] for an [int] [n]: the nearest binary64, ties to even.
    (CPython raises [OverflowError] above the binary64 range, where this
    gives an infinity; frame indices stay far below.) *)
Definition Z2float (n : Z) : float :=
  SF2Prim (binary_normalize prec emax n 0 false).

(** [max(0, d)]: the builtin keeps its first argument unless a later one
    is strictly greater. *)
Definition max0 (d : float) : float := if 0 <? d then d else 0.

(** [lst.pop(0)] on a non-empty list drops the head. *)
Definition pop0 {A : Type} (l : list A) : list A := tl l.

End Py.

(** ** [animation.py] *)

Section Animation.

Open Scope float_scope.

(** [np.arccos] on binary64, the one NumPy routine the geometry needs. *)
Variable arccos : float -> float.

(** *** Simulation parameters (lines 24-29) *)

Definition c_medium : float := 0.7.
Definition v_particle : float := 0.9.
Definition theta : float := arccos (c_medium / v_particle).
Definition n_medium : float := 1 / c_medium.

(** *** Data holders (lines 34-36) *)

(** A [plt.Circle] patch: [patch] stands for the identity of the Python
    object, [radius] and [alpha] for the attributes [set_radius] and
    [set_alpha] overwrite. *)
Record circle : Type := mkCircle {
  patch : nat;
  radius : float;
  alpha : float
}.

(** A wavefront dict [{'center': (x, y), 'start_frame': frame,
    'circle': Circle}]; the ordinate is the [int] [0] of [animate]. *)
Record wave : Type := mkWave {
  center : float * Z;
  start_frame : Z;
  wave_circle : circle
}.

(** The lists the closures share, the data of the particle artist, and
    the number of [Circle] objects created so far. *)
Record state : Type := mkState {
  waves : list wave;
  particle_trail : list (float * Z);
  particle : option (float * Z);
  patches : nat
}.

Definition init : state :=
  {| waves := []; particle_trail := []; particle := None; patches := 0 |}.

(** *** [animate] (lines 130-175) *)

(** Lines 132-133: [x = frame * 0.1 - 4], [y = 0]. *)
Definition position_at_frame (frame : Z) : float * Z :=
  (Py.Z2float frame * 0.1 - 4, 0%Z).

(** Lines 137-139: append, then drop the oldest entry above 30. *)
Definition push_trail (p : float * Z) (trail : list (float * Z))
  : list (float * Z) :=
  let trail := trail ++ [p] in
  if (30 <? List.length trail)%nat then Py.pop0 trail else trail.

(** Line 147: [frame % 5 == 0 and -8 <= x <= 8]. *)
Definition on_screen (x : float) : bool := (-8 <=? x) && (x <=? 8).

Definition emits (frame : Z) : bool :=
  (frame mod 5 =? 0)%Z && on_screen (fst (position_at_frame frame)).

(** Lines 148-154: the dict of a new wave and its circle. *)
Definition new_wave (frame : Z) (id : nat) : wave :=
  {| center := position_at_frame frame;
     start_frame := frame;
     wave_circle := {| patch := id; radius := 0.1; alpha := 0.2 |} |}.

(** Lines 147-154 as a step on the pair (wave list, circles created). *)
Definition maybe_emit (frame : Z) (ws : list wave) (created : nat)
  : list wave * nat :=
  if emits frame then (ws ++ [new_wave frame created], S created)
  else (ws, created).

(** Line 159 and line 162. *)
Definition wave_radius (age : Z) : float :=
  0.1 + Py.Z2float age * 0.1 * c_medium.

Definition fade_alpha (age : Z) : float :=
  Py.max0 (0.2 - Py.Z2float age * 0.01).

(** Line 165, the two halves of the test. *)
Definition faded (new_alpha : float) : bool := new_alpha <=? 0.03.

Definition out_of_bounds (c : float * Z) : bool :=
  let '(cx, cy) := c in
  (cx <? -10) || (10 <? cx) || (cy <? -8)%Z || (8 <? cy)%Z.

(** [wave['circle'].set_radius(r)] and [.set_alpha(a)]: the circle is
    reached through the dict, which the list and its copy both hold. *)
Definition set_circle (id : nat) (r a : float) (ws : list wave)
  : list wave :=
  map (fun w =>
         if Nat.eqb (patch (wave_circle w)) id
         then {| center := center w; start_frame := start_frame w;
                 wave_circle := {| patch := id; radius := r; alpha := a |} |}
         else w) ws.

(** [waves.remove(wave)] deletes the first dict equal to [wave].  Two
    wave dicts are equal only if their ['circle'] entries are, and a
    [Circle] is equal to itself alone: the search is on the patch. *)
Fixpoint remove_wave (id : nat) (ws : list wave) : list wave :=
  match ws with
  | [] => []
  | w :: ws' =>
      if Nat.eqb (patch (wave_circle w)) id then ws'
      else w :: remove_wave id ws'
  end.

(** Lines 158-167, the body of the loop for one [wave] of the copy; every
    wave dict has its ['circle'] key, set at line 153. *)
Definition age_wave (frame : Z) (ws : list wave) (w : wave) : list wave :=
  let age := (frame - start_frame w)%Z in
  let id := patch (wave_circle w) in
  let new_alpha := fade_alpha age in
  let ws := set_circle id (wave_radius age) new_alpha ws in
  if faded new_alpha || out_of_bounds (center w)
  then remove_wave id ws
  else ws.

(** Line 157: [for wave in waves.copy()], the body acting on [waves]. *)
Definition age_and_expire (frame : Z) (ws : list wave) : list wave :=
  fold_left (age_wave frame) ws ws.

Definition animate (frame : Z) (st : state) : state :=
  let p := position_at_frame frame in
  let '(ws, created) := maybe_emit frame (waves st) (patches st) in
  {| waves := age_and_expire frame ws;
     particle_trail := push_trail p (particle_trail st);
     particle := Some p;
     patches := created |}.

(** Line 180: [FuncAnimation(..., frames=200)] feeds [animate] the frame
    indices [0, 1, ..., 199] in order; [run n] is the state after the
    first [n] of them. *)
Definition frames : nat := 200.

Fixpoint run (n : nat) : state :=
  match n with
  | O => init
  | S k => animate (Z.of_nat k) (run k)
  end.

(** What [simulation(v, c)] works with: the parameters of lines 24-29
    and the frames it renders. *)
Record outcome : Type := mkOutcome {
  light_speed : float;
  particle_speed : float;
  cherenkov_angle : float;
  refractive_index : float;
  rendered : list state
}.

Definition simulation (v c : float) : outcome :=
  {| light_speed := c_medium;
     particle_speed := v_particle;
     cherenkov_angle := theta;
     refractive_index := n_medium;
     rendered := map (fun k => run (S k)) (seq 0 frames) |}.

End Animation.


(** ** [cherenkov_simulation.py] *)

Section Dialog.

Open Scope float_scope.

Variable arccos : float -> float.

(** [float(line_edit.text())]: the number read, or the [ValueError] that
    [float] raises on a text that is no number, with its message. *)
Inductive entry : Type :=
| Number (x : float)
| Malformed (msg : string).

Inductive exn : Type :=
| ValueError (msg : string).

(** Lines 51-52. *)
Definition run_simulation (v_particle c_medium : float) : outcome :=
  simulation arccos v_particle c_medium.

(** Lines 35-41: the body of the [try] up to the call, either the
    exception raised or the two speeds that passed. *)
Definition validate (particle_speed medium_speed : entry)
  : exn + (float * float) :=
  match particle_speed with
  | Malformed msg => inl (ValueError msg)
  | Number v_particle =>
      match medium_speed with
      | Malformed msg => inl (ValueError msg)
      | Number c_medium =>
          if negb ((0 <? c_medium) && (c_medium <? 1) &&
                   ((0 <? v_particle) && (v_particle <=? 1)))
          then inl (ValueError "Speeds must be between 0 and 1"%string)
          else if v_particle <=? c_medium
          then inl (ValueError
                 "Particle speed must exceed medium light speed for Cherenkov radiation"%string)
          else inr (v_particle, c_medium)
      end
  end.

(** What the click ends in: the warning box of line 47, or the dialog
    hidden and [run_simulation(v_particle, c_medium)] called (lines
    43-44). *)
Inductive shown : Type :=
| Warning (title msg : string)
| Ran (v_particle c_medium : float).

Definition validate_and_run (particle_speed medium_speed : entry) : shown :=
  match validate particle_speed medium_speed with
  | inl (ValueError msg) => Warning "Invalid Input"%string msg
  | inr (v_particle, c_medium) => Ran v_particle c_medium
  end.

End Dialog.

(** ** [compute_intensity] (lines 41-44 and 95-116), over the reals *)

Module Field.

Local Open Scope R_scope.

(** A division whose divisor is zero has no real value (NumPy would store
    an infinity or a NaN there and warn). *)
Definition div (a b : R) : option R :=
  if Req_dec_T b 0 then None else Some (a / b).

Definition bind {A B : Type} (m : option A) (k : A -> option B) : option B :=
  match m with
  | Some a => k a
  | None => None
  end.

Notation "x <- m ;; k" := (bind m (fun x => k))
  (at level 61, m at next level, right associativity).

Fixpoint traverse {A B : Type} (f : A -> option B) (l : list A)
  : option (list B) :=
  match l with
  | [] => Some []
  | a :: l' => b <- f a ;; bs <- traverse f l' ;; Some (b :: bs)
  end.

(** A two-dimensional array, row by row. *)
Definition array (A : Type) : Type := list (list A).

Definition amap {A B : Type} (f : A -> B) (a : array A) : array B :=
  map (map f) a.

Definition atraverse {A B : Type} (f : A -> option B) (a : array A)
  : option (array B) :=
  traverse (traverse f) a.

(** [a.max()]: NumPy refuses an array with no element. *)
Definition amax (a : array R) : option R :=
  match List.concat a with
  | [] => None
  | x :: l => Some (fold_left Rmax l x)
  end.

(** [np.linspace(start, stop, num)]. *)
Definition linspace (start stop : R) (num : nat) : list R :=
  map (fun i => start + INR i * ((stop - start) / INR (num - 1))) (seq 0 num).

(** Lines 41-44: [X, Y = np.meshgrid(x_lin, y_lin)], one pair per sample. *)
Definition nx : nat := 200.
Definition ny : nat := 150.
Definition x_lin : list R := linspace (-8) 8 nx.
Definition y_lin : list R := linspace (-6) 6 ny.
Definition XY : array (R * R) :=
  map (fun y => map (fun x => (x, y)) x_lin) y_lin.

(** Complex numbers, for [Z]. *)
Definition C : Type := R * R.
Definition Cadd (z w : C) : C := (fst z + fst w, snd z + snd w).
Definition Cscale (a : R) (z : C) : C := (a * fst z, a * snd z).
Definition Cexp_i (phase : R) : C := (cos phase, sin phase).
Definition Cabs (z : C) : R := sqrt (fst z * fst z + snd z * snd z).

(** [np.power(x, p)] for [x >= 0] and [p > 0]. *)
Definition power (x p : R) : R :=
  if Req_dec_T x 0 then 0 else Rpower x p.

Definition ltb (x y : R) : bool := if Rlt_dec x y then true else false.

(** The keys of a wave dict that [compute_intensity] reads. *)
Record source : Type := mkSource {
  center : R * R;
  start_frame : Z
}.

(** Line 24, which the closure reads, and lines 96-98. *)
Definition c_medium : R := 0.7.
Definition damping : R := 0.1.
Definition wavelength : R := 1.0.
Definition wave_speed : R := 0.1 * c_medium.

(** Line 104: the waves left out. *)
Definition out_of_view (w : source) : bool :=
  let '(cx, cy) := center w in
  ltb cx (-8) || ltb 8 cx || ltb cy (-6) || ltb 6 cy.

(** Lines 106-110 at the sample [(X, Y)]: the term added to [Z] there. *)
Definition contribution (frame_number : Z) (w : source) (p : R * R)
  : option C :=
  let '(X, Y) := p in
  let '(cx, cy) := center w in
  let age := (frame_number - start_frame w)%Z in
  let r := sqrt ((X - cx) ^ 2 + (Y - cy) ^ 2) in
  amplitude <- div (exp (- damping * r)) (r + 0.1) ;;
  phase <- div (2 * PI * (r - IZR age * wave_speed)) wavelength ;;
  Some (Cscale amplitude (Cexp_i phase)).

(** Lines 100-110 at one sample.  NumPy runs each line of the loop over the
    whole lattice; a sample only ever meets its own entries. *)
Definition superpose (frame_number : Z) (waves : list source) (p : R * R)
  : option C :=
  fold_left
    (fun Z w =>
       if out_of_view w then Z
       else z <- Z ;; c <- contribution frame_number w p ;; Some (Cadd z c))
    waves (Some (0, 0)).

Definition compute_intensity (frame_number : Z) (waves : list source)
  : option (array R) :=
  Z <- atraverse (superpose frame_number waves) XY ;;
  let I := amap (fun z => Cabs z ^ 2) Z in
  let I_norm := amap (fun i => power i 0.3) I in
  m <- amax I_norm ;;
  atraverse (fun i => div i (m + 1e-6)) I_norm.

End Field.

(** ** Auxiliary definitions for the proofs *)

(** The integers [lo, lo+1, ..., lo+n-1]. *)
Definition Zrange (lo : Z) (n : nat) : list Z :=
  map (fun i => (lo + Z.of_nat i)%Z) (seq 0 n).

(** The identities of the circles of a wave list. *)
Definition ids (ws : list wave) : list nat :=
  map (fun w => patch (wave_circle w)) ws.

(** What one pass of the aging loop does to a wave it keeps, and the test
    by which it drops one. *)
Definition aged (frame : Z) (w : wave) : wave :=
  let age := (frame - start_frame w)%Z in
  {| center := center w;
     start_frame := start_frame w;
     wave_circle := {| patch := patch (wave_circle w);
                       radius := wave_radius age;
                       alpha := fade_alpha age |} |}.

Definition expired (frame : Z) (w : wave) : bool :=
  faded (fade_alpha (frame - start_frame w)) || out_of_bounds (center w).

(** The frames below [n] at which [animate] emits. *)
Definition emitted (n : nat) : list Z := filter emits (Zrange 0 n).

(** Frame [s] is at most 16 frames before frame [f]. *)
Definition young (f s : Z) : bool := (f - s <? 17)%Z.

(** The states [animate] can produce from [init], whatever the frames. *)
Inductive reachable : state -> Prop :=
| reach_init : reachable init
| reach_animate frame st : reachable st -> reachable (animate frame st).

(** The waves of a state lie where the particle was when they were
    emitted, at an emitting frame, each with a circle of its own. *)
Definition wave_ok (w : wave) : Prop :=
  center w = position_at_frame (start_frame w) /\
  emits (start_frame w) = true.

Definition waves_ok (ws : list wave) (created : nat) : Prop :=
  Forall wave_ok ws /\ NoDup (ids ws) /\
  Forall (fun id => (id < created)%nat) (ids ws).

(** [TrailHistory]: the pushes of a sequence of positions, in order. *)
Definition pushes (ps : list (float * Z)) : list (float * Z) :=
  fold_left (fun trail p => push_trail p trail) ps [].

(** The values [compute_intensity] arrives at, written with the field
    division of the reals, to compare the checked computation with. *)
Module FieldValues.

Import Field.

Local Open Scope R_scope.

Definition term (frame_number : Z) (w : source) (p : R * R) : C :=
  let r := sqrt ((fst p - fst (center w)) ^ 2 + (snd p - snd (center w)) ^ 2) in
  Cscale (exp (- damping * r) / (r + 0.1))
         (Cexp_i (2 * PI * (r - IZR (frame_number - start_frame w) * wave_speed)
                  / wavelength)).

Definition total (frame_number : Z) (waves : list source) (p : R * R) (z : C)
  : C :=
  fold_left
    (fun z w => if out_of_view w then z else Cadd z (term frame_number w p))
    waves z.

Definition contrast (z : C) : R := power (Cabs z ^ 2) 0.3.

Definition peak (a : array R) : R :=
  match List.concat a with
  | [] => 0
  | x :: l => fold_left Rmax l x
  end.

End FieldValues.

(** The real number a binary64 stands for (0 for the infinities and NaN,
    which no position is), and a wave as [compute_intensity] reads it. *)
Definition float_value (x : float) : R :=
  match Prim2SF x with
  | S754_finite s m e =>
      ((if s then -1 else 1) * IZR (Zpos m) * powerRZ 2 e)%R
  | _ => 0%R
  end.

Definition to_source (w : wave) : Field.source :=
  {| Field.center := (float_value (fst (center w)), IZR (snd (center w)));
     Field.start_frame := start_frame w |}.

(** Line 170: the overlay of the frame [animate] has just advanced to. *)
Definition overlay (frame : Z) (st : state) : option (Field.array R) :=
  Field.compute_intensity frame (map to_source (waves st)).


(** ** The artists [animate] keeps on the axes (lines 75-90, 150-154,
       166, 174-175) *)

Section Canvas.

Open Scope float_scope.

(** [np.arccos], [np.cos] and [np.sin] on binary64. *)
Variables arccos cos sin : float -> float.

(** A dashed cone line made by [ax.plot([x, x_end], [y, y_end], '--')]:
    [line] stands for the identity of the [Line2D] object. *)
Record line2d : Type := mkLine {
  line : nat;
  xdata : float * float;
  ydata : float * float
}.

(** The circles and the cone lines the axes hold, the closure's list
    [angle_lines], and the number of cone lines created so far. *)
Record canvas : Type := mkCanvas {
  ax_patches : list nat;
  ax_lines : list line2d;
  angle_lines : list line2d;
  lines_created : nat
}.

Definition blank : canvas :=
  {| ax_patches := []; ax_lines := []; angle_lines := [];
     lines_created := 0 |}.

(** [artist.remove()] takes the artist off the axes it is on. *)
Fixpoint remove_line (id : nat) (ls : list line2d) : list line2d :=
  match ls with
  | [] => []
  | l :: ls' =>
      if Nat.eqb (line l) id then ls' else l :: remove_line id ls'
  end.

Fixpoint remove_patch (id : nat) (ps : list nat) : list nat :=
  match ps with
  | [] => []
  | p :: ps' => if Nat.eqb p id then ps' else p :: remove_patch id ps'
  end.

(** Lines 75-90. *)
Definition draw_angle_lines (x : float) (y : Z) (cv : canvas) : canvas :=
  let on_axes :=
    fold_left (fun ls l => remove_line (line l) ls)
              (angle_lines cv) (ax_lines cv) in
  let cone_length := 4 in
  let x_top := x + cone_length * cos (theta arccos) in
  let y_top := Py.Z2float y + cone_length * sin (theta arccos) in
  let x_bot := x + cone_length * cos (theta arccos) in
  let y_bot := Py.Z2float y - cone_length * sin (theta arccos) in
  let line1 := {| line := lines_created cv;
                  xdata := (x, x_top); ydata := (Py.Z2float y, y_top) |} in
  let line2 := {| line := S (lines_created cv);
                  xdata := (x, x_bot); ydata := (Py.Z2float y, y_bot) |} in
  {| ax_patches := ax_patches cv;
     ax_lines := on_axes ++ [line1; line2];
     angle_lines := [line1; line2];
     lines_created := S (S (lines_created cv)) |}.

(** Lines 165-166 for one [wave] of the copy: its circle leaves the axes
    when the wave leaves the list. *)
Definition age_wave_patches (frame : Z) (ps : list nat) (w : wave)
  : list nat :=
  if faded (fade_alpha (frame - start_frame w)) || out_of_bounds (center w)
  then remove_patch (patch (wave_circle w)) ps
  else ps.

(** The artists [animate] hands back to [FuncAnimation]. *)
Inductive artist : Type :=
| ParticleMarker
| TrailLine
| IntensityImage
| ParamsText
| AngleLine (id : nat)
| CirclePatch (id : nat).

(** [animate] as it acts on the axes, beside what it does to the state:
    the cone redrawn (line 144), the new circle added (line 152), the
    circles of the waves dropped taken off (line 166), and the list
    returned (lines 174-175). *)
Definition animate_canvas (frame : Z) (st : state) (cv : canvas)
  : canvas * list artist :=
  let '(x, y) := position_at_frame frame in
  let cv := draw_angle_lines x y cv in
  let ws := fst (maybe_emit frame (waves st) (patches st)) in
  let added :=
    if emits frame then ax_patches cv ++ [patches st] else ax_patches cv in
  let cv := {| ax_patches := fold_left (age_wave_patches frame) ws added;
               ax_lines := ax_lines cv;
               angle_lines := angle_lines cv;
               lines_created := lines_created cv |} in
  (cv,
   [ParticleMarker; TrailLine; IntensityImage; ParamsText]
   ++ map (fun l => AngleLine (line l)) (angle_lines cv)
   ++ map (fun w => CirclePatch (patch (wave_circle w)))
          (waves (animate frame st))).

(** The axes after the first [n] frames of the run. *)
Fixpoint run_canvas (n : nat) : canvas :=
  match n with
  | O => blank
  | S k => fst (animate_canvas (Z.of_nat k) (run k) (run_canvas k))
  end.

End Canvas.

(** A wave seen [k] frames later: same place, start frame moved by [k]. *)
Definition delayed (k : Z) (w : Field.source) : Field.source :=
  {| Field.center := Field.center w;
     Field.start_frame := (Field.start_frame w + k)%Z |}.

(** The waves [compute_intensity] does not skip. *)
Definition in_view (w : Field.source) : bool := negb (Field.out_of_view w).

(** The amplitude of line 108 at distance [r] from the centre. *)
Definition amplitude (r : R) : R :=
  (exp (- Field.damping * r) / (r + 0.1))%R.

(** ** Facts about binary64 comparisons *)

Section FloatOrder.

Open Scope float_scope.

Ltac spec_of c :=
  let v := eval vm_compute in (Prim2SF c) in
  change (Prim2SF c) with v.

(** A binary64 between -8 and 8 is neither below -10 nor above 10; by
    cases on the sign, exponent and mantissa of its specification. *)
Lemma on_screen_not_far (x : float) :
  on_screen x = true -> (x <? -10) = false /\ (10 <? x) = false.
Proof.
  unfold on_screen. rewrite andb_true_iff, !leb_spec, !ltb_spec.
  spec_of (-8). spec_of 8. spec_of (-10). spec_of 10.
  unfold SFleb, SFltb.
  destruct (Prim2SF x) as [s | s | | s m e]; cbn [SFcompare].
  - auto.
  - destruct s; intros [H1 H2]; discriminate.
  - intros [H1 H2]; discriminate.
  - rewrite !Pos.compare_cont_spec. cbn [Pos.switch_Eq].
    rewrite (Z.compare_antisym e (-49)%Z).
    rewrite (Pos.compare_antisym m 4503599627370496).
    rewrite (Pos.compare_antisym m 5629499534213120).
    destruct (e ?= -49)%Z; cbn [CompOpp];
      [ | destruct s; intros [H1 H2];
          (discriminate || (split; reflexivity)) .. ].
    destruct (m ?= 4503599627370496)%positive eqn:Hm; cbn [CompOpp].
    + apply Pos.compare_eq in Hm. subst m.
      destruct s; intros _; split; reflexivity.
    + rewrite Pos.compare_lt_iff in Hm.
      assert (Hlt : (m ?= 5629499534213120)%positive = Lt).
      { apply Pos.compare_lt_iff.
        apply (Pos.lt_trans _ _ _ Hm). reflexivity. }
      rewrite Hlt. destruct s; intros _; split; reflexivity.
    + destruct s; intros [H1 H2]; discriminate.
Qed.

Lemma on_screen_in_bounds (x : float) :
  on_screen x = true -> out_of_bounds (x, 0%Z) = false.
Proof.
  intros H. destruct (on_screen_not_far x H) as [H1 H2].
  unfold out_of_bounds. rewrite H1, H2. reflexivity.
Qed.

End FloatOrder.

(** ** Integer ranges, for facts checked frame by frame *)

Section Ranges.

Local Open Scope Z_scope.

Lemma Zrange_length lo n : List.length (Zrange lo n) = n.
Proof. unfold Zrange. now rewrite length_map, length_seq. Qed.

Lemma In_Zrange lo n a : In a (Zrange lo n) <-> lo <= a < lo + Z.of_nat n.
Proof.
  unfold Zrange. rewrite in_map_iff. split.
  - intros (i & <- & Hi). apply in_seq in Hi. lia.
  - intros H. exists (Z.to_nat (a - lo)). split; [ lia | ].
    apply in_seq. lia.
Qed.

Lemma Zrange_S lo n : Zrange lo (S n) = Zrange lo n ++ [lo + Z.of_nat n].
Proof. unfold Zrange. now rewrite seq_S, map_app. Qed.

Lemma Zrange_app lo a b :
  Zrange lo (a + b) = Zrange lo a ++ Zrange (lo + Z.of_nat a) b.
Proof.
  induction b as [ | b IH ].
  - rewrite Nat.add_0_r. symmetry. apply app_nil_r.
  - rewrite Nat.add_succ_r, !Zrange_S, IH, <- app_assoc.
    do 3 f_equal. lia.
Qed.

Lemma forallb_Zrange (P : Z -> bool) lo n :
  forallb P (Zrange lo n) = true ->
  forall a, lo <= a < lo + Z.of_nat n -> P a = true.
Proof.
  intros H a Ha. rewrite forallb_forall in H.
  apply H, In_Zrange, Ha.
Qed.

End Ranges.

(** ** The fade factor, age by age *)

Section Fade.

Open Scope float_scope.

(** Over the ages a 200-frame run can produce, the fade test of line 165
    fires from age 17 on. *)
Lemma fade_table (a : Z) :
  (0 <= a < 200)%Z -> faded (fade_alpha a) = (17 <=? a)%Z.
Proof.
  intros Ha. apply eqb_prop.
  apply (forallb_Zrange
           (fun a => Bool.eqb (faded (fade_alpha a)) (17 <=? a)%Z) 0 200);
    [ vm_compute; reflexivity | lia ].
Qed.

Lemma fade_decreasing_table (a b : Z) :
  (0 <= a < b)%Z -> (b <= 20)%Z -> (fade_alpha b <? fade_alpha a) = true.
Proof.
  intros Hab Hb.
  assert (H : forallb
                (fun a => forallb
                   (fun b => implb (a <? b)%Z
                               (fade_alpha b <? fade_alpha a))
                   (Zrange 0 21))
                (Zrange 0 21) = true) by (vm_compute; reflexivity).
  apply (forallb_Zrange _ 0 21) with (a := a) in H; [ | lia ].
  apply (forallb_Zrange _ 0 21) with (a := b) in H; [ | lia ].
  destruct (Z.ltb_spec a b); [ exact H | lia ].
Qed.

End Fade.

(** ** The aging loop as a filter *)

Section Aging.

Variable frame : Z.

Lemma ids_app ws ws' : ids (ws ++ ws') = ids ws ++ ids ws'.
Proof. apply map_app. Qed.

Lemma set_circle_absent id r a ws :
  ~ In id (ids ws) -> set_circle id r a ws = ws.
Proof.
  induction ws as [ | w ws IH ]; simpl; intros H; [ reflexivity | ].
  destruct (Nat.eqb_spec (patch (wave_circle w)) id) as [E | _].
  - exfalso. apply H. now left.
  - f_equal. apply IH. intros Hin. apply H. now right.
Qed.

Lemma remove_wave_absent id ws ws' :
  ~ In id (ids ws) -> remove_wave id (ws ++ ws') = ws ++ remove_wave id ws'.
Proof.
  induction ws as [ | w ws IH ]; simpl; intros H; [ reflexivity | ].
  destruct (Nat.eqb_spec (patch (wave_circle w)) id) as [E | _].
  - exfalso. apply H. now left.
  - f_equal. apply IH. intros Hin. apply H. now right.
Qed.

(** One iteration, on a list whose circles are pairwise distinct: the
    wave under the loop variable is rewritten in place or deleted, the
    others are left alone. *)
Lemma age_wave_step done w todo :
  ~ In (patch (wave_circle w)) (ids done) ->
  ~ In (patch (wave_circle w)) (ids todo) ->
  age_wave frame (done ++ w :: todo) w =
  if expired frame w then done ++ todo else done ++ aged frame w :: todo.
Proof.
  intros Hdone Htodo. unfold age_wave, expired.
  assert (Hset : forall r a,
             set_circle (patch (wave_circle w)) r a (done ++ w :: todo) =
             done ++ {| center := center w; start_frame := start_frame w;
                        wave_circle := {| patch := patch (wave_circle w);
                                          radius := r; alpha := a |} |}
                  :: todo).
  { intros r a. unfold set_circle. rewrite map_app. simpl.
    rewrite Nat.eqb_refl. f_equal; [ | f_equal ].
    - now apply set_circle_absent.
    - now apply set_circle_absent. }
  rewrite Hset.
  destruct (faded _ || out_of_bounds _); [ | reflexivity ].
  rewrite remove_wave_absent by assumption. simpl.
  now rewrite Nat.eqb_refl.
Qed.

Lemma age_fold todo : forall done,
  NoDup (ids todo) ->
  (forall id, In id (ids todo) -> ~ In id (ids done)) ->
  fold_left (age_wave frame) todo (done ++ todo) =
  done ++ map (aged frame) (filter (fun w => negb (expired frame w)) todo).
Proof.
  induction todo as [ | w todo IH ]; intros done Hnd Hsep; simpl.
  - reflexivity.
  - inversion Hnd as [ | ? ? Hw Hnd' ]; subst.
    rewrite age_wave_step; [ | apply Hsep; now left | exact Hw ].
    destruct (expired frame w); simpl.
    + apply IH; [ exact Hnd' | ].
      intros id Hid. apply Hsep. now right.
    + change (done ++ aged frame w :: todo)
        with (done ++ [aged frame w] ++ todo).
      rewrite app_assoc, IH, <- app_assoc; [ reflexivity | exact Hnd' | ].
      intros id Hid. rewrite ids_app, in_app_iff. simpl.
      intros [Hin | [E | []]].
      * revert Hin. apply Hsep. now right.
      * apply Hw. now rewrite E.
Qed.

(** Lines 157-167: on circles pairwise distinct, the loop keeps the waves
    that fail the test of line 165, in order, each with its circle
    resized and faded. *)
Lemma age_and_expire_filter ws :
  NoDup (ids ws) ->
  age_and_expire frame ws =
  map (aged frame) (filter (fun w => negb (expired frame w)) ws).
Proof.
  intros Hnd. unfold age_and_expire.
  apply (age_fold ws [] Hnd). intros id _ [].
Qed.

End Aging.

(** ** What every reachable state satisfies *)

Section Invariant.

Lemma ids_aged frame ws : ids (map (aged frame) ws) = ids ws.
Proof. unfold ids. rewrite map_map. reflexivity. Qed.

Lemma wave_ok_aged frame w : wave_ok w -> wave_ok (aged frame w).
Proof. intros H. exact H. Qed.

Lemma wave_ok_on_line w :
  wave_ok w ->
  snd (center w) = 0%Z /\ on_screen (fst (center w)) = true.
Proof.
  intros [Hc He]. rewrite Hc. split; [ reflexivity | ].
  unfold emits in He. apply andb_true_iff in He. apply He.
Qed.

Lemma wave_ok_in_bounds w : wave_ok w -> out_of_bounds (center w) = false.
Proof.
  intros H. destruct (wave_ok_on_line w H) as [Hy Hx].
  destruct (center w) as [x y]. simpl in Hy, Hx. subst y.
  now apply on_screen_in_bounds.
Qed.

Lemma waves_ok_emit frame ws created :
  waves_ok ws created ->
  waves_ok (fst (maybe_emit frame ws created))
           (snd (maybe_emit frame ws created)).
Proof.
  intros (Hok & Hnd & Hlt). unfold maybe_emit.
  destruct (emits frame) eqn:He; simpl; [ | now repeat split ].
  rewrite Forall_forall in Hlt. repeat split.
  - apply Forall_app. split; [ exact Hok | ].
    constructor; [ | constructor ]. split; [ reflexivity | exact He ].
  - rewrite ids_app. apply NoDup_app; [ exact Hnd | | ].
    + simpl. constructor; [ intros [] | constructor ].
    + intros id Hid [E | []]. simpl in E. subst id.
      apply Hlt in Hid. lia.
  - rewrite ids_app. apply Forall_app. split.
    + apply Forall_forall. intros id Hid. apply Hlt in Hid. lia.
    + simpl. constructor; [ lia | constructor ].
Qed.

Lemma waves_ok_age frame ws created :
  waves_ok ws created -> waves_ok (age_and_expire frame ws) created.
Proof.
  intros (Hok & Hnd & Hlt). rewrite age_and_expire_filter by exact Hnd.
  set (keep := fun w => negb (expired frame w)).
  assert (Hids : forall id, In id (ids (filter keep ws)) -> In id (ids ws)).
  { intros id Hid. unfold ids in *. apply in_map_iff in Hid.
    destruct Hid as (w & E & Hw). apply filter_In in Hw.
    apply in_map_iff. exists w. tauto. }
  repeat split.
  - apply Forall_forall. intros w' Hw'. apply in_map_iff in Hw'.
    destruct Hw' as (w & <- & Hw). apply filter_In in Hw.
    apply wave_ok_aged. rewrite Forall_forall in Hok. apply Hok, Hw.
  - rewrite ids_aged. clear Hids Hok Hlt.
    induction ws as [ | w ws IH ]; simpl; [ constructor | ].
    inversion Hnd as [ | ? ? Hw Hnd' ]; subst.
    destruct (keep w); simpl; [ | now apply IH ].
    constructor; [ | now apply IH ].
    intros Hin. apply Hw. unfold ids in *. apply in_map_iff in Hin.
    destruct Hin as (w' & E & Hw'). apply filter_In in Hw'.
    apply in_map_iff. exists w'. tauto.
  - rewrite ids_aged. apply Forall_forall. intros id Hid.
    rewrite Forall_forall in Hlt. apply Hlt, Hids, Hid.
Qed.

Lemma animate_waves frame st :
  waves (animate frame st) =
  age_and_expire frame (fst (maybe_emit frame (waves st) (patches st))) /\
  patches (animate frame st) =
  snd (maybe_emit frame (waves st) (patches st)).
Proof.
  unfold animate.
  destruct (maybe_emit frame (waves st) (patches st)); split; reflexivity.
Qed.

Lemma reachable_ok st : reachable st -> waves_ok (waves st) (patches st).
Proof.
  induction 1 as [ | frame st _ IH ].
  - repeat split; constructor.
  - destruct (animate_waves frame st) as [-> ->].
    apply waves_ok_age, waves_ok_emit, IH.
Qed.

Lemma run_reachable n : reachable (run n).
Proof. induction n; simpl; [ constructor | now constructor ]. Qed.

(** The start frames after a tick: those before it and the frame itself
    if it emits, less the ones the fade test drops. *)
Lemma animate_starts frame st :
  reachable st ->
  map start_frame (waves (animate frame st)) =
  filter (fun s => negb (faded (fade_alpha (frame - s))))
         (map start_frame (waves st) ++
          if emits frame then [frame] else []).
Proof.
  intros Hr. apply reachable_ok in Hr.
  destruct (animate_waves frame st) as [-> _].
  pose proof (waves_ok_emit frame _ _ Hr) as (Hok & Hnd & _).
  rewrite age_and_expire_filter by exact Hnd.
  rewrite map_map. simpl.
  replace (map start_frame (waves st) ++ if emits frame then [frame] else [])
    with (map start_frame (fst (maybe_emit frame (waves st) (patches st)))).
  2:{ unfold maybe_emit. destruct (emits frame); simpl.
      - now rewrite map_app.
      - now rewrite app_nil_r. }
  rewrite filter_map_swap. f_equal.
  apply filter_ext_in. intros w Hw. unfold expired.
  rewrite Forall_forall in Hok.
  rewrite (wave_ok_in_bounds w (Hok w Hw)). now rewrite orb_false_r.
Qed.

End Invariant.

(** ** The start frames of a run, and how many there are at once *)

Section Run.

Local Open Scope Z_scope.

Lemma emitted_S n :
  emitted (S n) =
  emitted n ++ if emits (Z.of_nat n) then [Z.of_nat n] else [].
Proof.
  unfold emitted. rewrite Zrange_S, filter_app. simpl.
  now destruct (emits (Z.of_nat n)).
Qed.

Lemma emitted_spec n s :
  In s (emitted n) <-> 0 <= s < Z.of_nat n /\ emits s = true.
Proof.
  unfold emitted. rewrite filter_In, In_Zrange.
  rewrite Z.add_0_l. reflexivity.
Qed.

Lemma filter_narrow {A} (p q : A -> bool) (l : list A) :
  (forall a, p a = true -> q a = true) ->
  filter p (filter q l) = filter p l.
Proof.
  intros Hpq. induction l as [ | a l IH ]; simpl; [ reflexivity | ].
  destruct (q a) eqn:Hq; simpl.
  - now rewrite IH.
  - destruct (p a) eqn:Hp; [ | exact IH ].
    apply Hpq in Hp. congruence.
Qed.

(** After [n] ticks ([n <= 200]) the active set holds, in order, the
    waves emitted during the last 17 of them. *)
Lemma run_starts (n : nat) :
  (n <= frames)%nat ->
  map start_frame (waves (run n)) =
  filter (young (Z.of_nat n - 1)) (emitted n).
Proof.
  unfold frames. induction n as [ | n IH ]; intros Hn; [ reflexivity | ].
  simpl run. rewrite animate_starts by apply run_reachable.
  rewrite IH by lia.
  rewrite (filter_ext_in _ (young (Z.of_nat n))).
  - rewrite filter_app, filter_narrow, emitted_S, filter_app.
    + replace (Z.of_nat (S n) - 1) with (Z.of_nat n) by lia. reflexivity.
    + unfold young. intros s Hs. apply Z.ltb_lt in Hs. apply Z.ltb_lt. lia.
  - intros s Hs. unfold young.
    assert (Hrange : 0 <= s <= Z.of_nat n).
    { apply in_app_iff in Hs. destruct Hs as [Hs | Hs].
      - apply filter_In in Hs. destruct Hs as [Hs _].
        apply emitted_spec in Hs. lia.
      - destruct (emits (Z.of_nat n)); [ | destruct Hs ].
        destruct Hs as [<- | []]. lia. }
    rewrite fade_table by lia.
    destruct (Z.leb_spec 17 (Z.of_nat n - s));
      destruct (Z.ltb_spec (Z.of_nat n - s) 17); (reflexivity || lia).
Qed.

Lemma NoDup_Zrange lo n : NoDup (Zrange lo n).
Proof.
  unfold Zrange. apply Injective_map_NoDup; [ | apply seq_NoDup ].
  intros i j. lia.
Qed.

(** Any 17 consecutive integers hold at most four multiples of 5: how
    many depends on the residue of the first alone. *)
Lemma multiples_of_5_in_window lo :
  (List.length (filter (fun s => (s mod 5 =? 0)%Z) (Zrange lo 17)) <= 4)%nat.
Proof.
  unfold Zrange. rewrite filter_map_swap, length_map.
  rewrite (filter_ext _ (fun i => (lo mod 5 + Z.of_nat i) mod 5 =? 0))
    by (intros i; now rewrite Z.add_mod_idemp_l by lia).
  assert (Hr : 0 <= lo mod 5 < 5) by (apply Z.mod_pos_bound; lia).
  assert (Hcase : lo mod 5 = 0 \/ lo mod 5 = 1 \/ lo mod 5 = 2 \/
                  lo mod 5 = 3 \/ lo mod 5 = 4) by lia.
  destruct Hcase as [-> | [-> | [-> | [-> | ->]]]];
    vm_compute; lia.
Qed.

Lemma active_starts_count n :
  (List.length (filter (young (Z.of_nat n - 1)%Z) (emitted n)) <= 4)%nat.
Proof.
  eapply Nat.le_trans; [ | apply (multiples_of_5_in_window (Z.of_nat n - 17)) ].
  apply NoDup_incl_length.
  - unfold emitted. apply NoDup_filter, NoDup_filter, NoDup_Zrange.
  - intros s Hs. apply filter_In in Hs. destruct Hs as [Hs Hy].
    apply emitted_spec in Hs. destruct Hs as [Hs He].
    unfold young in Hy. apply Z.ltb_lt in Hy.
    unfold emits in He. apply andb_true_iff in He.
    apply filter_In. split; [ apply In_Zrange; lia | apply He ].
Qed.

End Run.

(** ** The trail keeps the last 30 positions *)

Section Trail.

Lemma tl_skipn {A : Type} (l : list A) : forall k, tl (skipn k l) = skipn (S k) l.
Proof.
  induction l as [ | a l IH ]; intros [ | k ]; try reflexivity.
  apply IH.
Qed.

Lemma pushes_snoc ps p : pushes (ps ++ [p]) = push_trail p (pushes ps).
Proof. unfold pushes. now rewrite fold_left_app. Qed.

(** After any pushes the trail is the last 30 of them, oldest first. *)
Lemma pushes_last_30 ps : pushes ps = skipn (List.length ps - 30) ps.
Proof.
  induction ps as [ | p ps IH ] using rev_ind; [ reflexivity | ].
  rewrite pushes_snoc, IH, length_app. simpl List.length.
  unfold push_trail, Py.pop0. rewrite length_app, length_skipn.
  simpl List.length.
  destruct (Nat.ltb_spec 30 (List.length ps - (List.length ps - 30) + 1))
    as [Hfull | Hroom].
  - assert (Hlen : 30 <= List.length ps) by lia.
    assert (Hne : skipn (List.length ps - 30) ps <> []).
    { intros E. apply (f_equal (@List.length _)) in E.
      rewrite length_skipn in E. simpl in E. lia. }
    destruct (skipn (List.length ps - 30) ps) as [ | a t ] eqn:E;
      [ congruence | ].
    simpl tl. replace t with (tl (skipn (List.length ps - 30) ps))
      by now rewrite E.
    rewrite tl_skipn, skipn_app.
    replace (S (List.length ps - 30)) with (List.length ps + 1 - 30) by lia.
    replace (List.length ps + 1 - 30 - List.length ps) with 0 by lia.
    reflexivity.
  - replace (List.length ps - 30) with 0 by lia.
    replace (List.length ps + 1 - 30) with 0 by lia. reflexivity.
Qed.

Lemma pushes_length ps : List.length (pushes ps) <= 30.
Proof. rewrite pushes_last_30, length_skipn. lia. Qed.

(** The trail of a run is made of the pushes of its positions. *)
Lemma run_trail n :
  particle_trail (run n) =
  pushes (map position_at_frame (Zrange 0 n)).
Proof.
  induction n as [ | n IH ]; [ reflexivity | ].
  rewrite Zrange_S, map_app. cbn [map].
  rewrite pushes_snoc, <- IH, Z.add_0_l. simpl run.
  unfold animate. now destruct (maybe_emit _ _ _).
Qed.

End Trail.

(** ** The circles of a run *)

Section Circles.

Lemma run_waves_aged n :
  waves (run (S n)) =
  map (aged (Z.of_nat n))
      (filter (fun w => negb (expired (Z.of_nat n) w))
              (fst (maybe_emit (Z.of_nat n) (waves (run n)) (patches (run n))))).
Proof.
  simpl run. destruct (animate_waves (Z.of_nat n) (run n)) as [-> _].
  apply age_and_expire_filter.
  apply (waves_ok_emit _ _ _ (reachable_ok _ (run_reachable n))).
Qed.

(** After the tick of frame [n] every circle left has the radius and the
    opacity of its wave's age. *)
Lemma run_circles n w :
  In w (waves (run (S n))) ->
  radius (wave_circle w) = wave_radius (Z.of_nat n - start_frame w) /\
  alpha (wave_circle w) = fade_alpha (Z.of_nat n - start_frame w).
Proof.
  rewrite run_waves_aged. intros Hw. apply in_map_iff in Hw.
  destruct Hw as (w0 & <- & _). split; reflexivity.
Qed.

End Circles.

(** ** [compute_intensity] never divides by zero and stays within [0, 1] *)

Section FieldFacts.

Import Field FieldValues.

Local Open Scope R_scope.

Lemma div_defined a b : b <> 0 -> div a b = Some (a / b).
Proof. intros Hb. unfold div. now destruct (Req_dec_T b 0). Qed.

Lemma traverse_map {A B : Type} (f : A -> option B) (g : A -> B) l :
  (forall a, In a l -> f a = Some (g a)) -> traverse f l = Some (map g l).
Proof.
  induction l as [ | a l IH ]; intros H; simpl; [ reflexivity | ].
  rewrite (H a) by now left. simpl.
  rewrite IH by (intros; apply H; now right). reflexivity.
Qed.

Lemma atraverse_amap {A B : Type} (f : A -> option B) (g : A -> B) a :
  (forall row x, In row a -> In x row -> f x = Some (g x)) ->
  atraverse f a = Some (amap g a).
Proof.
  intros H. apply traverse_map. intros row Hrow.
  apply traverse_map. intros x Hx. now apply (H row).
Qed.

(** The divisor of line 108 is at least 0.1, that of line 109 is 1. *)
Lemma contribution_defined frame_number w p :
  contribution frame_number w p = Some (term frame_number w p).
Proof.
  unfold contribution, term. destruct p as [X Y], (center w) as [cx cy].
  cbn [fst snd].
  set (r := sqrt ((X - cx) ^ 2 + (Y - cy) ^ 2)).
  assert (Hr : 0 <= r) by apply sqrt_pos.
  rewrite div_defined by lra. cbn [bind].
  rewrite div_defined by (unfold wavelength; lra).
  reflexivity.
Qed.

Lemma superpose_fold frame_number p waves : forall z,
  fold_left
    (fun Z w =>
       if out_of_view w then Z
       else z <- Z ;; c <- contribution frame_number w p ;; Some (Cadd z c))
    waves (Some z) = Some (total frame_number waves p z).
Proof.
  induction waves as [ | w waves IH ]; intros z; simpl; [ reflexivity | ].
  destruct (out_of_view w); [ apply IH | ].
  rewrite contribution_defined. simpl. apply IH.
Qed.

Lemma superpose_defined frame_number waves p :
  superpose frame_number waves p = Some (total frame_number waves p (0, 0)).
Proof. apply superpose_fold. Qed.

Lemma power_nonneg x p : 0 <= power x p.
Proof.
  unfold power. destruct (Req_dec_T x 0); [ lra | ].
  unfold Rpower. left. apply exp_pos.
Qed.

Lemma contrast_nonneg z : 0 <= contrast z.
Proof. apply power_nonneg. Qed.

Lemma contrast_origin : contrast (0, 0) = 0.
Proof.
  unfold contrast, Cabs, power. cbn [fst snd].
  replace (0 * 0 + 0 * 0) with 0 by ring. rewrite sqrt_0.
  destruct (Req_dec_T (0 ^ 2) 0) as [ _ | H ]; [ reflexivity | ].
  exfalso. apply H. ring.
Qed.

Lemma fold_Rmax_bounds l : forall x,
  x <= fold_left Rmax l x /\
  (forall v, In v l -> v <= fold_left Rmax l x) /\
  In (fold_left Rmax l x) (x :: l).
Proof.
  induction l as [ | y l IH ]; intros x; simpl.
  - repeat split; [ lra | intros v [] | now left ].
  - destruct (IH (Rmax x y)) as (H1 & H2 & H3). repeat split.
    + pose proof (Rmax_l x y). lra.
    + intros v [E | Hv]; [ | now apply H2 ].
      subst v. pose proof (Rmax_r x y). lra.
    + destruct H3 as [H3 | H3]; [ | now right; right ].
      rewrite <- H3. apply Rmax_case; [ now left | now right; left ].
Qed.

Lemma peak_bounds (a : array R) row v :
  In row a -> In v row -> v <= peak a /\ In (peak a) (List.concat a).
Proof.
  intros Hrow Hv.
  assert (Hin : In v (List.concat a)) by (apply in_concat; eauto).
  unfold peak. destruct (List.concat a) as [ | x l ]; [ destruct Hin | ].
  destruct (fold_Rmax_bounds l x) as (H1 & H2 & H3). split; [ | exact H3 ].
  destruct Hin as [<- | Hin]; [ exact H1 | now apply H2 ].
Qed.

Lemma amax_defined (a : array R) row v :
  In row a -> In v row -> amax a = Some (peak a).
Proof.
  intros Hrow Hv.
  assert (Hin : In v (List.concat a)) by (apply in_concat; eauto).
  unfold amax, peak. destruct (List.concat a); [ destruct Hin | reflexivity ].
Qed.

Lemma linspace_length start stop num :
  List.length (linspace start stop num) = num.
Proof. unfold linspace. now rewrite length_map, length_seq. Qed.

Lemma XY_shape :
  List.length XY = ny /\ forall row, In row XY -> List.length row = nx.
Proof.
  unfold XY. split.
  - rewrite length_map. apply linspace_length.
  - intros row Hrow. apply in_map_iff in Hrow. destruct Hrow as (y & <- & _).
    rewrite length_map. apply linspace_length.
Qed.

Lemma amap_shape {A B : Type} (f : A -> B) (a : array A) n m :
  (List.length a = n /\ forall row, In row a -> List.length row = m) ->
  List.length (amap f a) = n /\
  forall row, In row (amap f a) -> List.length row = m.
Proof.
  intros [Hn Hm]. unfold amap. split.
  - now rewrite length_map.
  - intros row Hrow. apply in_map_iff in Hrow.
    destruct Hrow as (row' & <- & Hrow'). rewrite length_map. now apply Hm.
Qed.

Lemma amap_amap {A B D : Type} (f : A -> B) (g : B -> D) (a : array A) :
  amap g (amap f a) = amap (fun x => g (f x)) a.
Proof.
  unfold amap. rewrite map_map. apply map_ext. intros row. apply map_map.
Qed.

Lemma In_amap {A B : Type} (f : A -> B) (a : array A) row y :
  In row (amap f a) -> In y row ->
  exists row' x, In row' a /\ In x row' /\ y = f x.
Proof.
  unfold amap. intros Hrow Hy. apply in_map_iff in Hrow.
  destruct Hrow as (row' & <- & Hrow'). apply in_map_iff in Hy.
  destruct Hy as (x & <- & Hx). eauto.
Qed.

Lemma shape_inhabited {A : Type} (a : array A) n m :
  (0 < n)%nat -> (0 < m)%nat ->
  (List.length a = n /\ forall row, In row a -> List.length row = m) ->
  exists row x, In row a /\ In x row.
Proof.
  intros Hn Hm [Ha Hrows]. destruct a as [ | row a ]; simpl in Ha; [ lia | ].
  specialize (Hrows row (or_introl eq_refl)).
  destruct row as [ | x row ]; simpl in Hrows; [ lia | ].
  exists (x :: row), x. split; now left.
Qed.

Lemma unit_quotient c d eps : 0 <= c <= d -> 0 < eps -> 0 <= c / (d + eps) <= 1.
Proof.
  intros [Hc Hd] He.
  assert (Hpos : 0 < d + eps) by lra.
  split.
  - apply Rmult_le_pos; [ exact Hc | ]. left. now apply Rinv_0_lt_compat.
  - apply (Rmult_le_reg_r (d + eps)); [ exact Hpos | ].
    unfold Rdiv. rewrite Rmult_assoc, Rinv_l by lra. lra.
Qed.

(** The superposition at every sample of the lattice. *)
Lemma Z_shape frame_number waves :
  let Z := amap (fun p => total frame_number waves p (0, 0)) XY in
  List.length (amap contrast Z) = ny /\
  forall row, In row (amap contrast Z) -> List.length row = nx.
Proof. intros Z. apply amap_shape, amap_shape, XY_shape. Qed.

Lemma peak_contrast_nonneg (Z : array C) : 0 <= peak (amap contrast Z).
Proof.
  unfold peak. destruct (List.concat (amap contrast Z)) as [ | x l ] eqn:E;
    [ lra | ].
  destruct (fold_Rmax_bounds l x) as (_ & _ & Hin). rewrite <- E in Hin.
  apply in_concat in Hin. destruct Hin as (row & Hrow & Hin).
  destruct (In_amap _ _ _ _ Hrow Hin) as (_ & z & _ & _ & ->).
  apply contrast_nonneg.
Qed.

(** What [compute_intensity] returns, for any frame and any wave list. *)
Lemma compute_intensity_value frame_number waves :
  let Z := amap (fun p => total frame_number waves p (0, 0)) XY in
  compute_intensity frame_number waves =
  Some (amap (fun z => contrast z / (peak (amap contrast Z) + 1e-6)) Z).
Proof.
  intros Z. unfold compute_intensity.
  rewrite (atraverse_amap _ (fun p => total frame_number waves p (0, 0)))
    by (intros; apply superpose_defined).
  cbn [bind]. fold Z. rewrite amap_amap. fold contrast.
  change (amap (fun x => power (Cabs x ^ 2) 0.3) Z) with (amap contrast Z).
  destruct (shape_inhabited (amap contrast Z) ny nx) as (row & v & Hrow & Hv);
    [ unfold ny; lia | unfold nx; lia | apply Z_shape | ].
  rewrite (amax_defined _ row v Hrow Hv). cbn [bind].
  rewrite (atraverse_amap _ (fun i => i / (peak (amap contrast Z) + 1e-6))).
  - rewrite amap_amap. reflexivity.
  - intros row' i _ _. apply div_defined.
    pose proof (peak_contrast_nonneg Z). lra.
Qed.

Lemma Some_eq {A : Type} (a b : A) : Some a = Some b -> a = b.
Proof. intros H. now injection H. Qed.

Lemma intensity_entry_bounds frame_number waves field row v :
  compute_intensity frame_number waves = Some field ->
  In row field -> In v row -> 0 <= v <= 1.
Proof.
  rewrite compute_intensity_value. intros E Hrow Hv.
  apply Some_eq in E. subst field.
  destruct (In_amap _ _ _ _ Hrow Hv) as (row' & z & Hrow' & Hz & ->).
  apply unit_quotient; [ | lra ]. split; [ apply contrast_nonneg | ].
  apply (peak_bounds _ (map contrast row')).
  - unfold amap. now apply in_map.
  - now apply in_map.
Qed.

Lemma intensity_shape frame_number waves field :
  compute_intensity frame_number waves = Some field ->
  List.length field = ny /\ forall row, In row field -> List.length row = nx.
Proof.
  rewrite compute_intensity_value. intros E. apply Some_eq in E. subst field.
  apply amap_shape, amap_shape, XY_shape.
Qed.

Lemma total_nil frame_number p z : total frame_number [] p z = z.
Proof. reflexivity. Qed.

Lemma dark_field frame_number field row v :
  compute_intensity frame_number [] = Some field ->
  In row field -> In v row -> v = 0.
Proof.
  rewrite compute_intensity_value. intros E Hrow Hv.
  apply Some_eq in E. subst field.
  destruct (In_amap _ _ _ _ Hrow Hv) as (row' & z & Hrow' & Hz & ->).
  destruct (In_amap _ _ _ _ Hrow' Hz) as (_ & p & _ & _ & ->).
  rewrite total_nil, contrast_origin. unfold Rdiv. ring.
Qed.

End FieldFacts.

(** * The claims *)

Section AnimationClaims.

Open Scope float_scope.

(** C1 (the code departs from it).  [simulation(v, c)] overwrites its two
    arguments with the constants of lines 24-25: whatever pair it is given,
    its angle is [arccos (0.7 / 0.9)] and its refractive index [1 / 0.7].
    The pair (0.8, 0.5) passes the dialog's validation, and the index the
    simulation shows for it is not [1 / 0.5 = 2]. *)
Theorem simulation_ignores_its_parameters (arccos : float -> float) :
  (forall v c,
     light_speed (simulation arccos v c) = 0.7 /\
     particle_speed (simulation arccos v c) = 0.9 /\
     cherenkov_angle (simulation arccos v c) = arccos (0.7 / 0.9) /\
     refractive_index (simulation arccos v c) = 1 / 0.7) /\
  validate_and_run (Number 0.8) (Number 0.5) = Ran 0.8 0.5 /\
  refractive_index (run_simulation arccos 0.8 0.5) = 1.4285714285714286 /\
  1 / 0.5 = 2 /\
  (refractive_index (run_simulation arccos 0.8 0.5) =? 1 / 0.5) = false.
Proof.
  split; [ intros v c; repeat split | ].
  repeat split; vm_compute; reflexivity.
Qed.

(** C2.  A click with speeds outside their ranges, or with a particle no
    faster than light in the medium, ends in the warning box carrying the
    [ValueError] raised by the checks, and [run_simulation] is not called,
    so no frame is computed; a click with speeds in range and the particle
    the faster ends in the call, as 0.9 and 0.7 do. *)
Theorem invalid_speeds_rejected_before_any_frame :
  (forall v c,
     (v <=? c) = true \/
     (0 <? v) && (v <=? 1) = false \/
     (0 <? c) && (c <? 1) = false ->
     exists msg,
       validate (Number v) (Number c) = inl (ValueError msg) /\
       validate_and_run (Number v) (Number c) =
       Warning "Invalid Input" msg /\
       (msg = "Speeds must be between 0 and 1"%string \/
        msg = "Particle speed must exceed medium light speed for Cherenkov radiation"%string)) /\
  (forall v c,
     (v <=? c) = false ->
     (0 <? v) && (v <=? 1) = true ->
     (0 <? c) && (c <? 1) = true ->
     validate_and_run (Number v) (Number c) = Ran v c) /\
  validate_and_run (Number 0.9) (Number 0.7) = Ran 0.9 0.7.
Proof.
  split; [ | split ].
  - intros v c H. unfold validate_and_run, validate.
    destruct ((0 <? c) && (c <? 1)) eqn:Hc;
      destruct ((0 <? v) && (v <=? 1)) eqn:Hv; cbn [negb andb].
    + destruct (v <=? c) eqn:Hvc.
      * eexists. repeat split. now right.
      * destruct H as [H | [H | H]]; discriminate.
    + eexists. repeat split. now left.
    + eexists. repeat split. now left.
    + eexists. repeat split. now left.
  - intros v c Hvc Hv Hc. unfold validate_and_run, validate.
    rewrite Hc, Hv, Hvc. reflexivity.
  - vm_compute. reflexivity.
Qed.

Lemma invalid_speeds_rejected_witness :
  exists msg,
    validate (Number 0.5) (Number 0.7) = inl (ValueError msg) /\
    validate_and_run (Number 0.5) (Number 0.7) = Warning "Invalid Input" msg /\
    (msg = "Speeds must be between 0 and 1"%string \/
     msg = "Particle speed must exceed medium light speed for Cherenkov radiation"%string).
Proof.
  apply (proj1 invalid_speeds_rejected_before_any_frame 0.5 0.7).
  left. vm_compute. reflexivity.
Defined.

(** C3.  The emission step of a tick appends one wave, centred on the
    particle's position at that frame and stamped with the frame, when the
    frame is a multiple of 5 and the abscissa lies between -8 and 8, and
    leaves the list as it was otherwise; the aging loop then runs on the
    result. *)
Theorem wave_emitted_iff_fifth_frame_on_screen (frame : Z) (st : state) :
  let x := fst (position_at_frame frame) in
  let gate := (frame mod 5 = 0)%Z /\ (-8 <=? x) = true /\ (x <=? 8) = true in
  let after := fst (maybe_emit frame (waves st) (patches st)) in
  (gate ->
   exists w, after = waves st ++ [w] /\
             center w = position_at_frame frame /\
             start_frame w = frame) /\
  (~ gate -> after = waves st) /\
  (after <> waves st <-> gate) /\
  waves (animate frame st) = age_and_expire frame after.
Proof.
  intros x gate after.
  assert (Hgate : gate <-> emits frame = true).
  { unfold gate, emits, on_screen. fold x.
    rewrite !andb_true_iff, Z.eqb_eq. tauto. }
  assert (Hyes : emits frame = true ->
                 after = waves st ++ [new_wave frame (patches st)]).
  { intros He. unfold after, maybe_emit. now rewrite He. }
  assert (Hno : emits frame = false -> after = waves st).
  { intros He. unfold after, maybe_emit. now rewrite He. }
  split; [ | split; [ | split; [ split | ] ] ].
  - intros Hg. exists (new_wave frame (patches st)).
    split; [ apply Hyes, Hgate, Hg | split; reflexivity ].
  - intros Hg. apply Hno. destruct (emits frame); [ | reflexivity ].
    exfalso. apply Hg, Hgate. reflexivity.
  - intros Hne. apply Hgate. destruct (emits frame); [ reflexivity | ].
    exfalso. apply Hne, Hno. reflexivity.
  - intros Hg E. apply Hgate in Hg. rewrite (Hyes Hg) in E.
    apply (f_equal (@List.length _)) in E. rewrite length_app in E.
    simpl in E. lia.
  - apply animate_waves.
Qed.

Lemma wave_emitted_witness :
  exists w, fst (maybe_emit 15 (waves (run 15)) (patches (run 15))) =
            waves (run 15) ++ [w] /\
            center w = position_at_frame 15 /\
            start_frame w = 15%Z.
Proof.
  apply (proj1 (wave_emitted_iff_fifth_frame_on_screen 15 (run 15))).
  repeat split; vm_compute; reflexivity.
Defined.

(** C4.  Over the ages 0 to 20, which cover the ages 0 to 17 a wave goes
    through, the fade factor [max(0, 0.2 - age * 0.01)] strictly
    decreases as the age grows; the test
    [new_alpha <= 0.03] fails at every age up to 16 and holds at 17.  In a
    run, a wave emitted at frame [s] is in the active set after each of the
    ticks [s], ..., [s + 16], its circle carrying the fade factor of its
    age, and is gone after tick [s + 17]. *)
Theorem fade_strictly_decreases_and_expires_at_17 :
  (forall a b : Z,
     (0 <= a < b)%Z -> (b <= 20)%Z -> (fade_alpha b <? fade_alpha a) = true) /\
  (forall a : Z, (0 <= a <= 16)%Z -> faded (fade_alpha a) = false) /\
  faded (fade_alpha 17) = true /\
  (forall (n : nat) (s : Z),
     (n < frames)%nat -> (0 <= s <= Z.of_nat n)%Z -> emits s = true ->
     (In s (map start_frame (waves (run (S n)))) <->
      (Z.of_nat n - s <= 16)%Z)) /\
  (forall (n : nat) (w : wave),
     In w (waves (run (S n))) ->
     alpha (wave_circle w) = fade_alpha (Z.of_nat n - start_frame w)).
Proof.
  split; [ exact fade_decreasing_table | ].
  split; [ intros a Ha; rewrite fade_table by lia;
           destruct (Z.leb_spec 17 a); [ lia | reflexivity ] | ].
  split; [ vm_compute; reflexivity | ].
  split.
  - intros n s Hn Hs He. unfold frames in Hn.
    rewrite run_starts by (unfold frames; lia).
    rewrite filter_In, emitted_spec. unfold young.
    replace (Z.of_nat (S n) - 1)%Z with (Z.of_nat n) by lia.
    rewrite Z.ltb_lt. split; [ lia | ].
    intros Hage. repeat split; (lia || exact He).
  - intros n w Hw. apply (run_circles n w Hw).
Qed.

Lemma fade_at_17_below_fade_at_16 : (fade_alpha 17 <? fade_alpha 16) = true.
Proof.
  apply (proj1 fade_strictly_decreases_and_expires_at_17 16%Z 17%Z); lia.
Defined.

(** C7.  In every state [animate] can reach, each wave of the active set
    sits where it was emitted, on the line [y = 0] with its abscissa
    between -8 and 8; so for the waves the aging loop visits, at any frame,
    the bound half of the test of line 165 is false and the test is the
    fade test alone. *)
Theorem expiry_bound_branch_never_taken (st : state) :
  reachable st ->
  (forall w, In w (waves st) ->
     center w = position_at_frame (start_frame w) /\
     snd (center w) = 0%Z /\
     (-8 <=? fst (center w)) = true /\ (fst (center w) <=? 8) = true) /\
  (forall frame w,
     In w (fst (maybe_emit frame (waves st) (patches st))) ->
     out_of_bounds (center w) = false /\
     (faded (fade_alpha (frame - start_frame w)) || out_of_bounds (center w)) =
     faded (fade_alpha (frame - start_frame w))).
Proof.
  intros Hr. apply reachable_ok in Hr. split.
  - intros w Hw. destruct Hr as (Hok & _). rewrite Forall_forall in Hok.
    specialize (Hok w Hw). destruct (wave_ok_on_line w Hok) as [Hy Hx].
    unfold on_screen in Hx. apply andb_true_iff in Hx.
    destruct Hok as [Hc _]. tauto.
  - intros frame w Hw.
    destruct (waves_ok_emit frame _ _ Hr) as (Hok & _).
    rewrite Forall_forall in Hok.
    rewrite (wave_ok_in_bounds w (Hok w Hw)). split; [ reflexivity | ].
    apply orb_false_r.
Qed.

Lemma expiry_bound_branch_witness :
  (forall w, In w (waves (run 17)) ->
     center w = position_at_frame (start_frame w) /\
     snd (center w) = 0%Z /\
     (-8 <=? fst (center w)) = true /\ (fst (center w) <=? 8) = true) /\
  (forall frame w,
     In w (fst (maybe_emit frame (waves (run 17)) (patches (run 17)))) ->
     out_of_bounds (center w) = false /\
     (faded (fade_alpha (frame - start_frame w)) || out_of_bounds (center w)) =
     faded (fade_alpha (frame - start_frame w))).
Proof.
  apply (expiry_bound_branch_never_taken (run 17)).
  repeat constructor.
Defined.

(** C8.  Whatever positions are pushed, the trail holds the last 30 of
    them in the order pushed, hence never more than 30; along a run it
    never exceeds 30 entries, and after the frames 0 to 49 it is the
    positions of the frames 20 to 49, in frame order. *)
Theorem trail_holds_last_30_positions :
  (forall ps, (List.length (pushes ps) <= 30)%nat) /\
  (forall ps, pushes ps = skipn (List.length ps - 30) ps) /\
  (forall n, (List.length (particle_trail (run n)) <= 30)%nat) /\
  particle_trail (run 50) = pushes (map position_at_frame (Zrange 0 50)) /\
  particle_trail (run 50) = map position_at_frame (Zrange 20 30).
Proof.
  split; [ exact pushes_length | ].
  split; [ exact pushes_last_30 | ].
  split; [ intros n; rewrite run_trail; apply pushes_length | ].
  split; [ apply run_trail | ].
  vm_compute. reflexivity.
Qed.

(** C9.  The position [animate] gives the particle at frame [n] is
    [(n * 0.1 - 4, 0)] in binary64 arithmetic, which is [(-4, 0)] at frame
    0 and [(0, 0)] at frame 40; it is the same whatever state the tick
    starts from. *)
Theorem position_is_a_function_of_the_frame :
  (forall n : Z, position_at_frame n = (Py.Z2float n * 0.1 - 4, 0%Z)) /\
  position_at_frame 0 = (-4, 0%Z) /\
  position_at_frame 40 = (0, 0%Z) /\
  (forall (n : Z) (st st' : state),
     particle (animate n st) = Some (position_at_frame n) /\
     particle (animate n st') = particle (animate n st)) /\
  (forall k : nat,
     particle (run (S k)) = Some (position_at_frame (Z.of_nat k))).
Proof.
  assert (H : forall n st, particle (animate n st) = Some (position_at_frame n)).
  { intros n st. unfold animate. now destruct (maybe_emit _ _ _). }
  split; [ reflexivity | ].
  split; [ vm_compute; reflexivity | ].
  split; [ vm_compute; reflexivity | ].
  split; [ intros n st st'; now rewrite !H | ].
  intros k. apply H.
Qed.

(** C10.  After the tick of any frame [n] of the run the active set holds
    at most 4 waves, each emitted at a multiple of 5 and at most 16 frames
    old. *)
Theorem at_most_four_active_wavefronts (n : nat) :
  (n < frames)%nat ->
  (List.length (waves (run (S n))) <= 4)%nat /\
  (forall w, In w (waves (run (S n))) ->
     (0 <= Z.of_nat n - start_frame w <= 16)%Z /\
     (start_frame w mod 5 = 0)%Z).
Proof.
  intros Hn.
  assert (Hs : map start_frame (waves (run (S n))) =
               filter (young (Z.of_nat (S n) - 1)) (emitted (S n)))
    by (apply run_starts; unfold frames in *; lia).
  split.
  - rewrite <- (length_map start_frame), Hs. apply active_starts_count.
  - intros w Hw. apply (in_map start_frame) in Hw. rewrite Hs in Hw.
    apply filter_In in Hw. destruct Hw as [Hw Hy].
    apply emitted_spec in Hw. destruct Hw as [Hw He].
    unfold young in Hy. apply Z.ltb_lt in Hy.
    unfold emits in He. apply andb_true_iff in He. destruct He as [He _].
    apply Z.eqb_eq in He. lia.
Qed.

Lemma four_active_wavefronts_after_frame_16 :
  (List.length (waves (run 17)) <= 4)%nat /\
  (forall w, In w (waves (run 17)) ->
     (0 <= 16 - start_frame w <= 16)%Z /\ (start_frame w mod 5 = 0)%Z).
Proof.
  apply (at_most_four_active_wavefronts 16). unfold frames. lia.
Defined.

End AnimationClaims.

Section FieldClaims.

Import Field.

Local Open Scope R_scope.

(** C5.  For every frame and every list of waves, empty or not,
    [compute_intensity] returns an array of 150 rows of 200 samples, the
    lattice of 200 by 150 points, each of whose entries lies between 0 and
    1; so does the overlay of every state of a run. *)
Theorem intensity_within_unit_interval (frame_number : Z) (waves : list source) :
  (exists field,
     compute_intensity frame_number waves = Some field /\
     List.length field = 150%nat /\
     forall row, In row field ->
       List.length row = 200%nat /\ forall v, In v row -> 0 <= v <= 1) /\
  (forall st field row v,
     overlay frame_number st = Some field ->
     In row field -> In v row -> 0 <= v <= 1).
Proof.
  split.
  - destruct (compute_intensity frame_number waves) as [ field | ] eqn:E.
    + exists field. destruct (intensity_shape _ _ _ E) as [Hn Hm].
      split; [ reflexivity | split; [ exact Hn | ] ].
      intros row Hrow. split; [ now apply Hm | ].
      intros v Hv. now apply (intensity_entry_bounds _ _ _ row v E).
    + rewrite compute_intensity_value in E. discriminate.
  - intros st field row v E. apply (intensity_entry_bounds _ _ _ _ _ E).
Qed.

(** C6.  [compute_intensity] has a value for every frame and every list of
    waves: neither the amplitude's division by [r + 0.1], not even at the
    centre of a wave where [r = 0] and the amplitude is 10, nor the final
    division by [max + 1e-6] meets a zero divisor.  With no wave it returns
    the field that is 0 at each of the 150 by 200 samples. *)
Theorem intensity_total_without_zero_divisor :
  (forall frame_number waves, compute_intensity frame_number waves <> None) /\
  (forall frame_number st, overlay frame_number st <> None) /\
  (forall frame_number w p, contribution frame_number w p <> None) /\
  (forall frame_number w,
     exists phase,
       contribution frame_number w (center w) =
       Some (Cscale 10 (Cexp_i phase))) /\
  (forall frame_number,
     exists field,
       compute_intensity frame_number [] = Some field /\
       List.length field = 150%nat /\
       forall row, In row field ->
         List.length row = 200%nat /\ forall v, In v row -> v = 0).
Proof.
  split; [ | split; [ | split; [ | split ] ] ].
  - intros frame_number waves. now rewrite compute_intensity_value.
  - intros frame_number st. unfold overlay. now rewrite compute_intensity_value.
  - intros frame_number w p. now rewrite contribution_defined.
  - intros frame_number w. rewrite contribution_defined.
    unfold FieldValues.term. destruct (center w) as [cx cy]. cbn [fst snd].
    replace ((cx - cx) ^ 2 + (cy - cy) ^ 2) with 0 by ring.
    rewrite sqrt_0. eexists. do 2 f_equal.
    rewrite Rmult_0_r, exp_0. lra.
  - intros frame_number.
    destruct (compute_intensity frame_number []) as [ field | ] eqn:E.
    + exists field. destruct (intensity_shape _ _ _ E) as [Hn Hm].
      split; [ reflexivity | split; [ exact Hn | ] ].
      intros row Hrow. split; [ now apply Hm | ].
      intros v Hv. now apply (dark_field frame_number field row v E).
    + rewrite compute_intensity_value in E. discriminate.
Qed.

End FieldClaims.

(** * Further properties of the frame engine *)

Section AgingPass.

Lemma NoDup_ids_filter (keep : wave -> bool) ws :
  NoDup (ids ws) -> NoDup (ids (filter keep ws)).
Proof.
  induction ws as [ | w ws IH ]; simpl; intros Hnd; [ constructor | ].
  inversion Hnd as [ | ? ? Hw Hnd' ]; subst.
  destruct (keep w); simpl; [ | now apply IH ].
  constructor; [ | now apply IH ].
  intros Hin. apply Hw. unfold ids in *. apply in_map_iff in Hin.
  destruct Hin as (w' & E & Hw'). apply filter_In in Hw'.
  apply in_map_iff. exists w'. tauto.
Qed.

Lemma filter_twice {A : Type} (p : A -> bool) (l : list A) :
  filter p (filter p l) = filter p l.
Proof. now apply filter_narrow. Qed.

(** X1.  On a wave list whose circles are distinct objects, the loop of
    lines 157-167, which walks a copy while removing from the list itself,
    visits every wave once: it drops exactly the waves that pass the test
    of line 165 and leaves the others in their order, each with the radius
    and opacity of its age. *)
Theorem aging_pass_drops_exactly_the_expired (frame : Z) (ws : list wave) :
  NoDup (ids ws) ->
  age_and_expire frame ws =
  map (aged frame) (filter (fun w => negb (expired frame w)) ws) /\
  (forall w, In w ws ->
     expired frame w = false -> In (aged frame w) (age_and_expire frame ws)) /\
  (forall w, In w ws ->
     expired frame w = true ->
     ~ In (patch (wave_circle w)) (ids (age_and_expire frame ws))).
Proof.
  intros Hnd. rewrite age_and_expire_filter by exact Hnd.
  split; [ reflexivity | split ].
  - intros w Hw He. apply in_map, filter_In. now rewrite He.
  - intros w Hw He. rewrite ids_aged. unfold ids. intros Hin.
    apply in_map_iff in Hin. destruct Hin as (w' & E & Hw').
    apply filter_In in Hw'. destruct Hw' as [Hw' Hk].
    assert (w' = w); [ | subst w'; rewrite He in Hk; discriminate ].
    clear Hk He. induction ws as [ | a ws IH ]; [ destruct Hw | ].
    inversion Hnd as [ | ? ? Ha Hnd' ]; subst.
    destruct Hw as [-> | Hw], Hw' as [-> | Hw']; auto.
    + exfalso. apply Ha. unfold ids. apply in_map_iff. eauto.
    + exfalso. apply Ha. unfold ids. apply in_map_iff. eauto.
Qed.

Lemma aging_pass_witness :
  age_and_expire 17 (waves (run 17)) =
  map (aged 17) (filter (fun w => negb (expired 17 w)) (waves (run 17))) /\
  (forall w, In w (waves (run 17)) ->
     expired 17 w = false ->
     In (aged 17 w) (age_and_expire 17 (waves (run 17)))) /\
  (forall w, In w (waves (run 17)) ->
     expired 17 w = true ->
     ~ In (patch (wave_circle w)) (ids (age_and_expire 17 (waves (run 17))))).
Proof.
  apply (aging_pass_drops_exactly_the_expired 17 (waves (run 17))).
  apply (reachable_ok _ (run_reachable 17)).
Defined.

(** X2.  Running the aging loop a second time at the same frame changes
    nothing: what the first pass keeps, the second keeps as it is. *)
Theorem aging_pass_idempotent (frame : Z) (ws : list wave) :
  NoDup (ids ws) ->
  age_and_expire frame (age_and_expire frame ws) = age_and_expire frame ws.
Proof.
  intros Hnd. rewrite (age_and_expire_filter frame ws Hnd).
  rewrite age_and_expire_filter
    by (rewrite ids_aged; now apply NoDup_ids_filter).
  rewrite filter_map_swap, map_map.
  change (fun a => negb (expired frame (aged frame a)))
    with (fun a => negb (expired frame a)).
  rewrite filter_twice. reflexivity.
Qed.

Lemma aging_pass_idempotent_witness :
  age_and_expire 17 (age_and_expire 17 (waves (run 17))) =
  age_and_expire 17 (waves (run 17)).
Proof.
  apply (aging_pass_idempotent 17 (waves (run 17))).
  apply (reachable_ok _ (run_reachable 17)).
Defined.

End AgingPass.

Section Schedule.

Open Scope float_scope.

(** Over the 200 frames of the run the particle is on screen up to frame
    120, where it reaches [x = 8]. *)
Lemma emits_table (s : Z) :
  (0 <= s < 200)%Z -> emits s = ((s mod 5 =? 0) && (s <=? 120))%Z.
Proof.
  intros Hs. apply eqb_prop.
  apply (forallb_Zrange
           (fun s => Bool.eqb (emits s) ((s mod 5 =? 0) && (s <=? 120))%Z)
           0 200);
    [ vm_compute; reflexivity | lia ].
Qed.

Lemma patches_run (n : nat) : patches (run n) = List.length (emitted n).
Proof.
  induction n as [ | n IH ]; [ reflexivity | ].
  simpl run. destruct (animate_waves (Z.of_nat n) (run n)) as [_ ->].
  rewrite emitted_S, length_app, <- IH. unfold maybe_emit.
  destruct (emits (Z.of_nat n)); simpl; lia.
Qed.

(** X3.  In the 200-frame run a wave is emitted at the frames 0, 5, ...,
    120 and at no other: the particle leaves the band [-8, 8] after frame
    120.  So 25 circles are created in all, and after any number of ticks
    the circles created are as many as the emitting frames gone by. *)
Theorem waves_emitted_every_fifth_frame_up_to_120 :
  (forall s : Z,
     (0 <= s < 200)%Z ->
     (emits s = true <-> (s mod 5 = 0)%Z /\ (s <= 120)%Z)) /\
  (forall n : nat, patches (run n) = List.length (emitted n)) /\
  patches (run frames) = 25%nat /\
  fst (position_at_frame 120) = 8 /\
  (8 <? fst (position_at_frame 121)) = true.
Proof.
  split; [ | split; [ exact patches_run | ] ].
  - intros s Hs. rewrite emits_table by exact Hs.
    rewrite andb_true_iff, Z.eqb_eq, Z.leb_le. reflexivity.
  - repeat split; vm_compute; reflexivity.
Qed.

Lemma emission_at_frame_120 :
  emits 120 = true <-> (120 mod 5 = 0)%Z /\ (120 <= 120)%Z.
Proof.
  apply (proj1 waves_emitted_every_fifth_frame_up_to_120 120%Z). lia.
Defined.

(** The ages of the waves left after the tick of frame [n]. *)
Lemma run_ages (n : nat) (w : wave) :
  (n < frames)%nat -> In w (waves (run (S n))) ->
  (0 <= Z.of_nat n - start_frame w <= 16)%Z /\ emits (start_frame w) = true.
Proof.
  intros Hn Hw. apply (in_map start_frame) in Hw.
  rewrite run_starts in Hw by (unfold frames in *; lia).
  apply filter_In in Hw. destruct Hw as [Hw Hy].
  apply emitted_spec in Hw. unfold young in Hy. apply Z.ltb_lt in Hy.
  split; [ lia | apply Hw ].
Qed.

Lemma run_waves_nil (n : nat) :
  (137 <= n < frames)%nat -> waves (run (S n)) = [].
Proof.
  intros [Hge Hn]. destruct (waves (run (S n))) as [ | w ws ] eqn:E;
    [ reflexivity | ].
  exfalso. destruct (run_ages n w Hn) as [Hage He];
    [ rewrite E; now left | ].
  rewrite emits_table in He by (unfold frames in *; lia).
  apply andb_true_iff in He. destruct He as [_ He]. apply Z.leb_le in He.
  lia.
Qed.

(** X4.  The last wave is emitted at frame 120 and dropped at frame 137:
    from then to the end of the run the active set is empty, while after
    each of the ticks before it is not. *)
Theorem active_set_empty_from_frame_137 (n : nat) :
  (n < frames)%nat ->
  (waves (run (S n)) = [] <-> (137 <= n)%nat).
Proof.
  intros Hn. split.
  - intros E. destruct (Nat.le_gt_cases 137 n) as [ | Hlt ]; [ assumption | ].
    exfalso.
    pose (s := Z.min (5 * (Z.of_nat n / 5)) 120).
    assert (Hs : In s (map start_frame (waves (run (S n))))).
    { rewrite run_starts by (unfold frames in *; lia).
      pose proof (Z.mul_div_le (Z.of_nat n) 5 ltac:(lia)).
      pose proof (Z.mod_pos_bound (Z.of_nat n) 5 ltac:(lia)).
      pose proof (Z.div_mod (Z.of_nat n) 5 ltac:(lia)).
      apply filter_In. split.
      - apply emitted_spec. split; [ unfold s; lia | ].
        rewrite emits_table by (unfold s, frames in *; lia).
        apply andb_true_iff. split; [ | apply Z.leb_le; unfold s; lia ].
        apply Z.eqb_eq. unfold s.
        destruct (Z.min_spec (5 * (Z.of_nat n / 5)) 120) as [[_ ->] | [_ ->]];
          [ | reflexivity ].
        rewrite Z.mul_comm. apply Z.mod_mul. lia.
      - unfold young. apply Z.ltb_lt. unfold s. lia. }
    rewrite E in Hs. destruct Hs.
  - intros Hge. apply run_waves_nil. lia.
Qed.

Lemma active_set_empty_after_frame_137 : waves (run 138) = [] <-> (137 <= 137)%nat.
Proof.
  apply (active_set_empty_from_frame_137 137). unfold frames. lia.
Defined.

(** Over the ages of the waves on display, the radius and the opacity of
    line 159 and line 162. *)
Lemma circle_table (a : Z) :
  (0 <= a <= 16)%Z ->
  (0.1 <=? wave_radius a) && (wave_radius a <=? 1.22) &&
  ((0.03 <? fade_alpha a) && (fade_alpha a <=? 0.2)) = true.
Proof.
  intros Ha.
  apply (forallb_Zrange
           (fun a => (0.1 <=? wave_radius a) && (wave_radius a <=? 1.22) &&
                     ((0.03 <? fade_alpha a) && (fade_alpha a <=? 0.2)))
           0 17);
    [ vm_compute; reflexivity | lia ].
Qed.

(** X5.  After every tick of the run each circle on display has a radius
    between 0.1 and 1.22 and an opacity above 0.03 and at most 0.2: a wave
    is dropped before its circle could fade further or grow larger. *)
Theorem circles_on_display_within_bounds (n : nat) (w : wave) :
  (n < frames)%nat -> In w (waves (run (S n))) ->
  (0.1 <=? radius (wave_circle w)) = true /\
  (radius (wave_circle w) <=? 1.22) = true /\
  (0.03 <? alpha (wave_circle w)) = true /\
  (alpha (wave_circle w) <=? 0.2) = true.
Proof.
  intros Hn Hw. destruct (run_circles n w Hw) as [-> ->].
  destruct (run_ages n w Hn Hw) as [Hage _].
  pose proof (circle_table _ Hage) as H.
  rewrite !andb_true_iff in H. tauto.
Qed.

Lemma circles_after_frame_16_within_bounds :
  (0.1 <=? radius (wave_circle (aged 16 (new_wave 0 0)))) = true /\
  (radius (wave_circle (aged 16 (new_wave 0 0))) <=? 1.22) = true /\
  (0.03 <? alpha (wave_circle (aged 16 (new_wave 0 0)))) = true /\
  (alpha (wave_circle (aged 16 (new_wave 0 0))) <=? 0.2) = true.
Proof.
  apply (circles_on_display_within_bounds 16 (aged 16 (new_wave 0 0))).
  - unfold frames. lia.
  - vm_compute. left. reflexivity.
Defined.

End Schedule.

Section TrailWindow.

Lemma skipn_Zrange (k n : nat) (lo : Z) :
  (k <= n)%nat ->
  skipn k (Zrange lo n) = Zrange (lo + Z.of_nat k) (n - k).
Proof.
  intros Hk. replace n with (k + (n - k))%nat at 1 by lia.
  rewrite Zrange_app, skipn_app, Zrange_length, Nat.sub_diag.
  rewrite skipn_all2 by (rewrite Zrange_length; lia). reflexivity.
Qed.

(** X6.  After [n] ticks the trail holds the positions of the last
    [min n 30] frames, oldest first; its last entry is where the particle
    is now. *)
Theorem trail_is_the_last_30_frames (n : nat) :
  particle_trail (run n) =
  map position_at_frame (Zrange (Z.of_nat (n - 30)) (Nat.min n 30)) /\
  List.length (particle_trail (run n)) = Nat.min n 30 /\
  last (particle_trail (run (S n))) (position_at_frame 0) =
  position_at_frame (Z.of_nat n).
Proof.
  assert (H : forall m, particle_trail (run m) =
              map position_at_frame
                  (Zrange (Z.of_nat (m - 30)) (Nat.min m 30))).
  { intros m. rewrite run_trail, pushes_last_30, length_map, Zrange_length.
    rewrite skipn_map, skipn_Zrange by lia.
    replace (m - (m - 30))%nat with (Nat.min m 30) by lia.
    now rewrite Z.add_0_l. }
  split; [ apply H | split ].
  - now rewrite H, length_map, Zrange_length.
  - rewrite H. replace (Nat.min (S n) 30) with (S (Nat.min n 29)) by lia.
    rewrite Zrange_S, map_app. cbn [map]. rewrite last_last.
    f_equal. lia.
Qed.

End TrailWindow.

Section Accepted.

Open Scope float_scope.

Ltac spec_of c :=
  let v := eval vm_compute in (Prim2SF c) in
  change (Prim2SF c) with v.

(** Two binary64 above zero, the first not below or equal to the second:
    the second is below the first. *)
Lemma positive_not_leb (v c : float) :
  (0 <? v) = true -> (0 <? c) = true -> (v <=? c) = false ->
  (c <? v) = true.
Proof.
  rewrite leb_spec, !ltb_spec. spec_of 0. unfold SFleb, SFltb.
  destruct (Prim2SF v) as [sv | sv | | sv mv ev];
    destruct (Prim2SF c) as [sc | sc | | sc mc ec]; cbn [SFcompare];
    try discriminate;
    try (destruct sv; discriminate); try (destruct sc; discriminate);
    try (destruct sv, sc; discriminate || reflexivity).
  destruct sv, sc; try discriminate. intros _ _.
  rewrite (Z.compare_antisym ev ec), !Pos.compare_cont_spec.
  cbn [Pos.switch_Eq]. rewrite (Pos.compare_antisym mv mc).
  destruct (ev ?= ec)%Z; cbn [CompOpp]; try discriminate; try reflexivity.
  destruct (mv ?= mc)%positive; cbn [CompOpp]; try discriminate; reflexivity.
Qed.

(** X7.  The dialog calls [run_simulation] only with two numbers that
    satisfy [0 < c_medium < v_particle <= 1] as binary64 comparisons, so
    neither is a NaN or an infinity; any other pair of entries, a text that
    is no number included, ends in the warning box. *)
Theorem simulation_run_only_on_ordered_speeds
    (particle_speed medium_speed : entry) (v c : float) :
  validate_and_run particle_speed medium_speed = Ran v c <->
  particle_speed = Number v /\ medium_speed = Number c /\
  (0 <? c) = true /\ (c <? v) = true /\ (v <=? 1) = true /\
  (c <? 1) = true.
Proof.
  unfold validate_and_run, validate. split.
  - destruct particle_speed as [v' | m]; [ | discriminate ].
    destruct medium_speed as [c' | m]; [ | discriminate ].
    destruct (0 <? c') eqn:H1; [ | discriminate ].
    destruct (c' <? 1) eqn:H2; [ | discriminate ].
    destruct (0 <? v') eqn:H3; [ | discriminate ].
    destruct (v' <=? 1) eqn:H4; [ | discriminate ].
    cbn [andb negb].
    destruct (v' <=? c') eqn:H5; [ discriminate | ].
    intros E. injection E as <- <-.
    repeat split; try assumption. now apply positive_not_leb.
  - intros (-> & -> & H1 & H2 & H3 & H4).
    assert (H5 : (0 <? v) = true).
    { revert H1 H2. rewrite !ltb_spec. spec_of 0. unfold SFltb.
      destruct (Prim2SF v) as [sv | sv | | sv mv ev];
        destruct (Prim2SF c) as [sc | sc | | sc mc ec]; cbn [SFcompare];
        try discriminate; try (destruct sc; discriminate);
        try (destruct sv, sc; discriminate || reflexivity);
        destruct sv; try reflexivity; try discriminate. }
    assert (H6 : (v <=? c) = false).
    { revert H1 H2. rewrite leb_spec, !ltb_spec. spec_of 0.
      unfold SFltb, SFleb.
      destruct (Prim2SF v) as [sv | sv | | sv mv ev];
        destruct (Prim2SF c) as [sc | sc | | sc mc ec]; cbn [SFcompare];
        try discriminate; try reflexivity;
        try (destruct sc; discriminate);
        try (destruct sv, sc; discriminate || reflexivity).
      destruct sv, sc; try discriminate; try reflexivity. intros _.
      rewrite (Z.compare_antisym ev ec), !Pos.compare_cont_spec.
      cbn [Pos.switch_Eq]. rewrite (Pos.compare_antisym mv mc).
      destruct (ev ?= ec)%Z; cbn [CompOpp]; try discriminate;
        try reflexivity.
      destruct (mv ?= mc)%positive; cbn [CompOpp]; try discriminate;
        reflexivity. }
    rewrite H1, H4, H5, H3, H6. reflexivity.
Qed.

End Accepted.

Section Trajectory.

Open Scope float_scope.

(** X17.  Along the 200 frames of the run the particle keeps to the line
    [y = 0] and its abscissa strictly increases from frame to frame, in
    binary64 as computed: rounding never makes it stall or step back.  It
    starts at -4 and is beyond 8 from frame 121 on. *)
Theorem particle_moves_strictly_rightwards (a b : Z) :
  (0 <= a < b)%Z -> (b < 200)%Z ->
  (fst (position_at_frame a) <? fst (position_at_frame b)) = true /\
  snd (position_at_frame a) = 0%Z /\
  (-4 <=? fst (position_at_frame a)) = true /\
  ((120 < b)%Z -> (8 <? fst (position_at_frame b)) = true).
Proof.
  intros Hab Hb.
  assert (H : forallb
                (fun a => forallb
                   (fun b => implb (a <? b)%Z
                               (fst (position_at_frame a) <?
                                fst (position_at_frame b)))
                   (Zrange 0 200))
                (Zrange 0 200) = true) by (vm_compute; reflexivity).
  apply (forallb_Zrange _ 0 200) with (a := a) in H; [ | lia ].
  apply (forallb_Zrange _ 0 200) with (a := b) in H; [ | lia ].
  assert (H0 : forallb (fun a => -4 <=? fst (position_at_frame a))
                       (Zrange 0 200) = true) by (vm_compute; reflexivity).
  assert (H1 : forallb (fun b => implb (120 <? b)%Z
                                   (8 <? fst (position_at_frame b)))
                       (Zrange 0 200) = true) by (vm_compute; reflexivity).
  apply (forallb_Zrange _ 0 200) with (a := a) in H0; [ | lia ].
  apply (forallb_Zrange _ 0 200) with (a := b) in H1; [ | lia ].
  split; [ | split; [ reflexivity | split; [ exact H0 | ] ] ].
  - destruct (Z.ltb_spec a b); [ exact H | lia ].
  - intros Hlate. destruct (Z.ltb_spec 120 b); [ exact H1 | lia ].
Qed.

Lemma particle_further_right_at_frame_121 :
  (fst (position_at_frame 120) <? fst (position_at_frame 121)) = true /\
  snd (position_at_frame 120) = 0%Z /\
  (-4 <=? fst (position_at_frame 120)) = true /\
  ((120 < 121)%Z -> (8 <? fst (position_at_frame 121)) = true).
Proof.
  apply (particle_moves_strictly_rightwards 120 121); lia.
Defined.

End Trajectory.

(** * What stays on the axes *)

Section CanvasFacts.

Open Scope float_scope.

Variables arccos cos sin : float -> float.

Lemma remove_lines_all (todo : list line2d) : forall rest,
  fold_left (fun ls l => remove_line (line l) ls) todo (todo ++ rest) = rest.
Proof.
  induction todo as [ | l todo IH ]; intros rest; [ reflexivity | ].
  simpl. rewrite Nat.eqb_refl. apply IH.
Qed.

Lemma draw_angle_lines_fresh x y cv :
  ax_lines cv = angle_lines cv ->
  ax_lines (draw_angle_lines arccos cos sin x y cv) =
  angle_lines (draw_angle_lines arccos cos sin x y cv).
Proof.
  intros E. unfold draw_angle_lines. cbn [ax_lines angle_lines].
  rewrite E. rewrite <- (app_nil_r (angle_lines cv)) at 2.
  now rewrite remove_lines_all.
Qed.

Lemma run_canvas_lines n :
  ax_lines (run_canvas arccos cos sin n) =
  angle_lines (run_canvas arccos cos sin n) /\
  lines_created (run_canvas arccos cos sin n) = (2 * n)%nat.
Proof.
  induction n as [ | n [IH1 IH2] ]; [ split; reflexivity | ].
  simpl run_canvas. unfold animate_canvas.
  destruct (position_at_frame (Z.of_nat n)) as [x y].
  cbn [fst ax_lines angle_lines lines_created]. split.
  - now apply draw_angle_lines_fresh.
  - unfold draw_angle_lines. cbn [lines_created]. lia.
Qed.

Lemma remove_patch_absent id ps ps' :
  ~ In id ps -> remove_patch id (ps ++ ps') = ps ++ remove_patch id ps'.
Proof.
  induction ps as [ | p ps IH ]; simpl; intros H; [ reflexivity | ].
  destruct (Nat.eqb_spec p id) as [E | _].
  - exfalso. apply H. now left.
  - f_equal. apply IH. intros Hin. apply H. now right.
Qed.

Lemma patches_fold frame todo : forall done,
  NoDup (ids todo) ->
  (forall id, In id (ids todo) -> ~ In id done) ->
  fold_left (age_wave_patches frame) todo (done ++ ids todo) =
  done ++ ids (filter (fun w => negb (expired frame w)) todo).
Proof.
  induction todo as [ | w todo IH ]; intros done Hnd Hsep; [ reflexivity | ].
  inversion Hnd as [ | ? ? Hw Hnd' ]; subst.
  cbn [fold_left filter ids map]. fold (ids todo).
  unfold age_wave_patches at 2. fold (expired frame w).
  destruct (expired frame w); cbn [negb].
  - rewrite remove_patch_absent by (apply Hsep; now left).
    cbn [remove_patch]. rewrite Nat.eqb_refl.
    apply IH; [ exact Hnd' | ]. intros id Hid. apply Hsep. now right.
  - change (done ++ patch (wave_circle w) :: ids todo)
      with (done ++ [patch (wave_circle w)] ++ ids todo).
    rewrite app_assoc, IH; [ | exact Hnd' | ].
    + cbn [ids map]. now rewrite <- app_assoc.
    + intros id Hid. rewrite in_app_iff. intros [Hin | [E | []]].
      * revert Hin. apply Hsep. now right.
      * apply Hw. now rewrite E.
Qed.

Lemma run_canvas_patches n :
  ax_patches (run_canvas arccos cos sin n) = ids (waves (run n)).
Proof.
  induction n as [ | n IH ]; [ reflexivity | ].
  simpl run_canvas. unfold animate_canvas.
  destruct (position_at_frame (Z.of_nat n)) as [x y].
  cbn [fst ax_patches]. rewrite IH. simpl run.
  destruct (animate_waves (Z.of_nat n) (run n)) as [-> _].
  pose proof (waves_ok_emit (Z.of_nat n) _ _
                (reachable_ok _ (run_reachable n))) as (_ & Hnd & _).
  rewrite age_and_expire_filter by exact Hnd. rewrite ids_aged.
  replace (if emits (Z.of_nat n)
           then ids (waves (run n)) ++ [patches (run n)]
           else ids (waves (run n)))
    with (ids (fst (maybe_emit (Z.of_nat n) (waves (run n))
                      (patches (run n))))).
  2:{ unfold maybe_emit. destruct (emits (Z.of_nat n)); cbn [fst];
        [ now rewrite ids_app | reflexivity ]. }
  apply (patches_fold _ _ [] Hnd). intros id _ [].
Qed.

(** X8.  No circle leaks: after any number of ticks the circle patches on
    the axes are the circles of the active waves, in the same order; each
    circle added at line 152 is taken off at line 166 in the tick that
    drops its wave.  During the 200-frame run the axes never hold more
    than 4 circles. *)
Theorem axes_hold_the_circles_of_the_active_waves :
  (forall n : nat,
     ax_patches (run_canvas arccos cos sin n) = ids (waves (run n)) /\
     NoDup (ax_patches (run_canvas arccos cos sin n))) /\
  (forall n : nat,
     (n <= frames)%nat ->
     (List.length (ax_patches (run_canvas arccos cos sin n)) <= 4)%nat).
Proof.
  split.
  - intros n. rewrite run_canvas_patches. split; [ reflexivity | ].
    apply (reachable_ok _ (run_reachable n)).
  - intros n Hn. rewrite run_canvas_patches. unfold ids.
    rewrite length_map, <- (length_map start_frame), run_starts by exact Hn.
    apply active_starts_count.
Qed.

(** X9.  [draw_angle_lines] never piles up cone lines: after every tick
    the axes hold exactly the two lines just drawn, the ones the previous
    tick drew having been removed; both start at the particle and end at
    the same abscissa. *)
Theorem cone_is_always_two_fresh_lines (n : nat) :
  let cv := run_canvas arccos cos sin (S n) in
  let x := fst (position_at_frame (Z.of_nat n)) in
  ax_lines cv = angle_lines cv /\
  map line (angle_lines cv) = [2 * n; 2 * n + 1]%nat /\
  map (fun l => (fst (xdata l), fst (ydata l))) (angle_lines cv) =
  [(x, 0); (x, 0)] /\
  map (fun l => snd (xdata l)) (angle_lines cv) =
  [x + 4 * cos (theta arccos); x + 4 * cos (theta arccos)] /\
  map (fun l => snd (ydata l)) (angle_lines cv) =
  [0 + 4 * sin (theta arccos); 0 - 4 * sin (theta arccos)].
Proof.
  intros cv x. split; [ apply run_canvas_lines | ].
  destruct (run_canvas_lines n) as [_ Hc].
  unfold cv, x. simpl run_canvas. unfold animate_canvas.
  unfold position_at_frame. cbn [fst snd angle_lines].
  unfold draw_angle_lines. cbn [angle_lines map line xdata ydata fst snd].
  rewrite Hc. repeat split.
  do 2 f_equal. lia.
Qed.

(** X10.  The list [animate] returns for blitting holds the four fixed
    artists, the two cone lines and one circle per active wave, between 6
    and 10 artists in the run; every cone line and circle in it is on the
    axes. *)
Theorem animate_returns_the_artists_on_the_axes (n : nat) :
  let result := animate_canvas arccos cos sin
                  (Z.of_nat n) (run n) (run_canvas arccos cos sin n) in
  List.length (snd result) = (6 + List.length (waves (run (S n))))%nat /\
  ((n < frames)%nat -> (List.length (snd result) <= 10)%nat) /\
  (forall id, In (CirclePatch id) (snd result) ->
              In id (ax_patches (fst result))) /\
  (forall id, In (AngleLine id) (snd result) ->
              In id (map line (ax_lines (fst result)))).
Proof.
  intros result.
  assert (Hfst : fst result = run_canvas arccos cos sin (S n)) by reflexivity.
  assert (Hsnd : snd result =
                 [ParticleMarker; TrailLine; IntensityImage; ParamsText]
                 ++ map (fun l => AngleLine (line l))
                        (angle_lines (run_canvas arccos cos sin (S n)))
                 ++ map (fun w => CirclePatch (patch (wave_circle w)))
                        (waves (run (S n)))).
  { unfold result. simpl run_canvas. simpl run. unfold animate_canvas.
    destruct (position_at_frame (Z.of_nat n)) as [x y]. reflexivity. }
  assert (Hlen : List.length (snd result) =
                 (6 + List.length (waves (run (S n))))%nat).
  { rewrite Hsnd, !length_app, !length_map.
    assert (H2 : List.length (angle_lines (run_canvas arccos cos sin (S n)))
                 = 2%nat).
    { simpl run_canvas. unfold animate_canvas.
      destruct (position_at_frame (Z.of_nat n)) as [x y]. reflexivity. }
    rewrite H2. simpl. lia. }
  split; [ exact Hlen | split; [ | split ] ].
  - intros Hn. rewrite Hlen, <- (length_map start_frame), run_starts
      by (unfold frames in *; lia).
    pose proof (active_starts_count (S n)). lia.
  - intros id Hin. rewrite Hfst, run_canvas_patches. rewrite Hsnd in Hin.
    repeat (apply in_app_iff in Hin; destruct Hin as [Hin | Hin]).
    + simpl in Hin. intuition discriminate.
    + apply in_map_iff in Hin. destruct Hin as (l & E & _). discriminate.
    + apply in_map_iff in Hin. destruct Hin as (w & E & Hw).
      injection E as <-.
      now apply (in_map (fun w => patch (wave_circle w))).
  - intros id Hin. rewrite Hfst.
    destruct (run_canvas_lines (S n)) as [-> _]. rewrite Hsnd in Hin.
    repeat (apply in_app_iff in Hin; destruct Hin as [Hin | Hin]).
    + simpl in Hin. intuition discriminate.
    + apply in_map_iff in Hin. destruct Hin as (l & E & Hl).
      injection E as <-. now apply (in_map line).
    + apply in_map_iff in Hin. destruct Hin as (w & E & _). discriminate.
Qed.

End CanvasFacts.

Lemma four_circles_on_the_axes_after_17_ticks :
  (List.length (ax_patches (run_canvas (fun t => t) (fun t => t) (fun t => t) 17))
   <= 4)%nat.
Proof.
  apply (proj2 (axes_hold_the_circles_of_the_active_waves
                  (fun t => t) (fun t => t) (fun t => t)) 17%nat).
  unfold frames. lia.
Defined.

Lemma ten_artists_returned_at_frame_16 :
  (List.length
     (snd (animate_canvas (fun t => t) (fun t => t) (fun t => t) 16
             (run 16) (run_canvas (fun t => t) (fun t => t) (fun t => t) 16)))
   <= 10)%nat.
Proof.
  apply (proj1 (proj2 (animate_returns_the_artists_on_the_axes
                         (fun t => t) (fun t => t) (fun t => t) 16%nat))).
  unfold frames. lia.
Defined.

(** * Further properties of [compute_intensity] *)

Section FieldExtras.

Import Field FieldValues.

Local Open Scope R_scope.

Lemma traverse_ext {A B : Type} (f g : A -> option B) l :
  (forall a, f a = g a) -> traverse f l = traverse g l.
Proof.
  intros H. induction l as [ | a l IH ]; simpl; [ reflexivity | ].
  now rewrite H, IH.
Qed.

Lemma compute_intensity_ext frame_number frame_number' waves waves' :
  (forall p, superpose frame_number waves p =
             superpose frame_number' waves' p) ->
  compute_intensity frame_number waves =
  compute_intensity frame_number' waves'.
Proof.
  intros H. unfold compute_intensity, atraverse.
  rewrite (traverse_ext (traverse (superpose frame_number waves))
                        (traverse (superpose frame_number' waves'))).
  - reflexivity.
  - intros row. now apply traverse_ext.
Qed.

Lemma total_in_view frame_number p waves : forall z,
  total frame_number (filter in_view waves) p z =
  total frame_number waves p z.
Proof.
  induction waves as [ | w waves IH ]; intros z; [ reflexivity | ].
  unfold in_view in *. simpl. destruct (out_of_view w) eqn:E; simpl.
  - apply IH.
  - rewrite E. apply IH.
Qed.

(** X11.  A wave whose centre lies outside the viewport [-8, 8] x [-6, 6]
    adds nothing: the field of a wave list is the field of its waves in
    view. *)
Theorem waves_out_of_view_do_not_contribute frame_number waves :
  compute_intensity frame_number (filter in_view waves) =
  compute_intensity frame_number waves.
Proof.
  apply compute_intensity_ext. intros p.
  rewrite !superpose_defined. f_equal. apply total_in_view.
Qed.

Lemma total_delayed k frame_number p waves : forall z,
  total (frame_number + k) (map (delayed k) waves) p z =
  total frame_number waves p z.
Proof.
  induction waves as [ | w waves IH ]; intros z; [ reflexivity | ].
  simpl. rewrite IH.
  change (out_of_view (delayed k w)) with (out_of_view w).
  destruct (out_of_view w); [ reflexivity | ].
  do 2 f_equal. unfold term, delayed. cbn [center start_frame].
  replace (frame_number + k - (start_frame w + k))%Z
    with (frame_number - start_frame w)%Z by lia.
  reflexivity.
Qed.

(** X12.  The field depends on the frame through the ages of the waves
    only: the same waves emitted [k] frames later give at frame [n + k]
    the field they gave at frame [n]. *)
Theorem intensity_depends_on_ages_only k frame_number waves :
  compute_intensity (frame_number + k) (map (delayed k) waves) =
  compute_intensity frame_number waves.
Proof.
  apply compute_intensity_ext. intros p.
  rewrite !superpose_defined. f_equal. apply total_delayed.
Qed.

Lemma unit_quotient_strict c d eps :
  0 <= c <= d -> 0 < eps -> c / (d + eps) < 1.
Proof.
  intros [Hc Hd] He.
  assert (Hpos : 0 < d + eps) by lra.
  apply (Rmult_lt_reg_r (d + eps)); [ exact Hpos | ].
  unfold Rdiv. rewrite Rmult_assoc, Rinv_l by lra. lra.
Qed.

(** X13.  The normalised field never reaches 1: the [1e-6] added to the
    maximum keeps every entry, the largest included, strictly below. *)
Theorem intensity_strictly_below_one frame_number waves :
  exists field,
    compute_intensity frame_number waves = Some field /\
    forall row, In row field -> forall v, In v row -> v < 1.
Proof.
  rewrite compute_intensity_value. eexists. split; [ reflexivity | ].
  intros row Hrow v Hv.
  destruct (In_amap _ _ _ _ Hrow Hv) as (row' & z & Hrow' & Hz & ->).
  apply unit_quotient_strict; [ | lra ]. split; [ apply contrast_nonneg | ].
  apply (peak_bounds _ (map contrast row')).
  - unfold amap. now apply in_map.
  - now apply in_map.
Qed.

Lemma linspace_bounds start stop num v :
  start <= stop -> (2 <= num)%nat ->
  In v (linspace start stop num) -> start <= v <= stop.
Proof.
  intros Hle Hnum Hv. unfold linspace in Hv. apply in_map_iff in Hv.
  destruct Hv as (i & <- & Hi). apply in_seq in Hi.
  assert (Hd : 0 < INR (num - 1)) by (apply lt_0_INR; lia).
  assert (Hi0 : 0 <= INR i) by apply pos_INR.
  assert (Hi1 : INR i <= INR (num - 1)) by (apply le_INR; lia).
  set (d := INR (num - 1)) in *. set (t := INR i) in *.
  assert (Hq : 0 <= t / d <= 1).
  { split.
    - apply Rmult_le_pos; [ exact Hi0 | ]. left. now apply Rinv_0_lt_compat.
    - apply (Rmult_le_reg_r d); [ exact Hd | ].
      unfold Rdiv. rewrite Rmult_assoc, Rinv_l by lra. lra. }
  replace (t * ((stop - start) / d)) with ((t / d) * (stop - start))
    by (field; lra).
  nra.
Qed.

(** X14.  Every sample of the lattice lies in the rectangle
    [-8, 8] x [-6, 6] that the overlay is drawn on. *)
Theorem lattice_within_the_viewport :
  Forall (Forall (fun p => -8 <= fst p <= 8 /\ -6 <= snd p <= 6)) XY.
Proof.
  apply Forall_forall. intros row Hrow. apply Forall_forall. intros p Hp.
  unfold XY in Hrow. apply in_map_iff in Hrow.
  destruct Hrow as (y & <- & Hy). apply in_map_iff in Hp.
  destruct Hp as (x & <- & Hx). cbn [fst snd]. split.
  - apply (linspace_bounds _ _ nx); [ lra | unfold nx; lia | exact Hx ].
  - apply (linspace_bounds _ _ ny); [ lra | unfold ny; lia | exact Hy ].
Qed.

Lemma exp_nonpos x : x <= 0 -> exp x <= 1.
Proof.
  intros [Hx | ->]; [ | rewrite exp_0; lra ].
  rewrite <- exp_0. left. now apply exp_increasing.
Qed.

Lemma amplitude_bounds r : 0 <= r -> 0 < amplitude r <= 10.
Proof.
  intros Hr. unfold amplitude.
  assert (He : 0 < exp (- damping * r)) by apply exp_pos.
  assert (He1 : exp (- damping * r) <= 1)
    by (apply exp_nonpos; unfold damping; lra).
  assert (Hd : 0 < r + 0.1) by lra.
  split.
  - apply Rmult_lt_0_compat; [ exact He | now apply Rinv_0_lt_compat ].
  - apply (Rmult_le_reg_r (r + 0.1)); [ exact Hd | ].
    unfold Rdiv. rewrite Rmult_assoc, Rinv_l by lra. nra.
Qed.

Lemma term_components frame_number w p :
  Rabs (fst (term frame_number w p)) <= 10 /\
  Rabs (snd (term frame_number w p)) <= 10.
Proof.
  unfold term.
  set (r := sqrt _). set (phase := _ / wavelength).
  fold (amplitude r).
  assert (Hr : 0 <= r) by apply sqrt_pos.
  destruct (amplitude_bounds r Hr) as [Ha0 Ha1].
  unfold Cscale, Cexp_i. cbn [fst snd].
  pose proof (COS_bound phase) as [Hc0 Hc1].
  pose proof (SIN_bound phase) as [Hs0 Hs1].
  split; apply Rabs_le; split; nra.
Qed.

Lemma total_components frame_number p waves : forall z,
  Rabs (fst (total frame_number waves p z)) <=
  Rabs (fst z) + 10 * INR (List.length (filter in_view waves)) /\
  Rabs (snd (total frame_number waves p z)) <=
  Rabs (snd z) + 10 * INR (List.length (filter in_view waves)).
Proof.
  induction waves as [ | w waves IH ]; intros z.
  - simpl. split; lra.
  - unfold in_view in *. simpl. destruct (out_of_view w); simpl negb; cbv iota.
    + apply IH.
    + destruct (IH (Cadd z (term frame_number w p))) as [H1 H2].
      destruct (term_components frame_number w p) as [T1 T2].
      change (List.length (w :: filter (fun w => negb (out_of_view w)) waves))
        with (S (List.length (filter (fun w => negb (out_of_view w)) waves))).
      rewrite S_INR.
      pose proof (Rabs_triang (fst z) (fst (term frame_number w p))) as A1.
      pose proof (Rabs_triang (snd z) (snd (term frame_number w p))) as A2.
      change (fst z + fst (term frame_number w p))
        with (fst (Cadd z (term frame_number w p))) in A1.
      change (snd z + snd (term frame_number w p))
        with (snd (Cadd z (term frame_number w p))) in A2.
      split; lra.
Qed.

(** X15.  The amplitude of a wave at a sample is positive and at most 10,
    its value at the wave's centre, so the offset 0.1 caps what one wave
    can add; the real and imaginary parts of the sum [Z] at any sample stay
    within 10 times the number of waves in view. *)
Theorem superposition_is_bounded frame_number waves p :
  (forall r, 0 <= r -> 0 < amplitude r <= 10) /\
  amplitude 0 = 10 /\
  exists z,
    superpose frame_number waves p = Some z /\
    Rabs (fst z) <= 10 * INR (List.length (filter in_view waves)) /\
    Rabs (snd z) <= 10 * INR (List.length (filter in_view waves)).
Proof.
  split; [ exact amplitude_bounds | split ].
  - unfold amplitude, damping. rewrite Rmult_0_r, exp_0. lra.
  - rewrite superpose_defined. eexists. split; [ reflexivity | ].
    destruct (total_components frame_number p waves (0, 0)) as [H1 H2].
    cbn [fst snd] in H1, H2. rewrite Rabs_R0 in H1, H2. split; lra.
Qed.

(** X16.  From frame 137 to the end of the run there is no wave left, and
    the overlay [animate] computes is 0 at every sample. *)
Theorem overlay_dark_from_frame_137 (n : nat) :
  (137 <= n < frames)%nat ->
  exists field,
    overlay (Z.of_nat n) (run (S n)) = Some field /\
    List.length field = 150%nat /\
    forall row, In row field ->
      List.length row = 200%nat /\ forall v, In v row -> v = 0.
Proof.
  intros Hn. unfold overlay. rewrite (run_waves_nil n Hn). cbn [map].
  destruct (compute_intensity (Z.of_nat n) []) as [ field | ] eqn:E.
  - exists field. destruct (intensity_shape _ _ _ E) as [Hrows Hcols].
    split; [ reflexivity | split; [ exact Hrows | ] ].
    intros row Hrow. split; [ now apply Hcols | ].
    intros v Hv. now apply (dark_field (Z.of_nat n) field row v E).
  - rewrite compute_intensity_value in E. discriminate.
Qed.

Lemma overlay_dark_at_frame_150 :
  exists field,
    overlay 150 (run 151) = Some field /\
    List.length field = 150%nat /\
    forall row, In row field ->
      List.length row = 200%nat /\ forall v, In v row -> v = 0.
Proof.
  apply (overlay_dark_from_frame_137 150). unfold frames. lia.
Defined.

End FieldExtras.
